(** * eventsource-aws: the SQS consumer pipeline and the S3 replay path

    A shallow embedding of [queue/queue.go] (package [queue]) and of the
    replay code of package [s3firehose], with the properties of the
    natural-language specification stated over it.

    Goroutines block in [select] statements; which arm of a [select]
    proceeds is decided by the environment (the other stages, the clock,
    the caller of [Close]).  Each stage is therefore a function of its
    state and of the list of arms the environment lets proceed, in program
    order.  Calls to collaborators (queue API, serializer, handler,
    logger) are recorded in the state, oldest first. *)

From Stdlib Require Import String Ascii Init.Byte DecimalString DecimalNat.
From Stdlib Require Import Arith NArith ZArith Bool Lia List Permutation.
Import ListNotations.

Set Implicit Arguments.
Local Open Scope string_scope.
Local Open Scope list_scope.

(** ** Go runtime pieces the packages rely on *)

Module Go.

Definition bytes := list byte.

(** Go [error] values. [None : option error] is Go's [nil] error.  One
    constructor per error the two packages create with [fmt.Errorf], and
    one for the errors of collaborators. *)
Inductive error : Type :=
| Canceled                      (* context.Canceled *)
| CorruptInputError             (* encoding/base64, offset left out *)
| External (msg : string)       (* returned by an API, a serializer or a handler *)
| UnableToUnmarshal (body : string)
    (* queue: "unable to unmarshal event -> %v", *m.Body *)
| UnableToDecodeLine (line : nat) (cause : error)
    (* s3firehose: "unable to base64 decode line %v - %v" *)
| UnableToUnmarshalEvent (cause : error)
    (* s3firehose: "unable to unmarshal event - %v" *)
| UnableToList (bucket prefix : string) (cause : error)
    (* s3firehose: "unable to list objects from s3://%v/%v - %v" *)
| UnableToProcess (bucket key : string) (cause : error).
    (* s3firehose: "unable to process s3 object, s3://%v/%v - %v" *)

(** A Go call returning [(T, error)]. *)
Inductive result (A : Type) : Type :=
| Ok (a : A)
| Failed (e : error).
Arguments Failed {A} e.

(** [context.Context] as a stage observes it: the [Done()] channel is
    closed exactly when [Err()] is non-nil.  The contexts of this package
    come from [context.WithCancel], so the only error is [Canceled]. *)
Inductive Context : Type := Live | Cancelled.

Definition ctx_Err (c : Context) : option error :=
  match c with
  | Live => None
  | Cancelled => Some Canceled
  end.

(** How a stage function stands after the environment's choices so far. *)
Inductive outcome : Type :=
| Running                          (* blocked in a select, or still looping *)
| Returned (err : option error)    (* the function returned err *)
| Panicked.                        (* nil pointer dereference *)

(** [strconv.Itoa] on a non-negative int. *)
Definition Itoa (n : nat) : string := NilEmpty.string_of_uint (Nat.to_uint n).

(** *** [base64.StdEncoding.DecodeString]

    Standard alphabet, mandatory [=] padding, carriage returns and line
    feeds ignored wherever they stand, trailing bits not checked (the
    encoding is not strict). *)

Definition sextet (c : ascii) : option N :=
  let n := N_of_ascii c in
  if ((65 <=? n) && (n <=? 90))%N then Some (n - 65)%N
  else if ((97 <=? n) && (n <=? 122))%N then Some (n - 71)%N
  else if ((48 <=? n) && (n <=? 57))%N then Some (n + 4)%N
  else if (n =? 43)%N then Some 62%N
  else if (n =? 47)%N then Some 63%N
  else None.

Definition is_newline (c : ascii) : bool :=
  let n := N_of_ascii c in ((n =? 10) || (n =? 13))%N.

Definition is_pad (c : ascii) : bool := (N_of_ascii c =? 61)%N.

Definition byte_of_N (n : N) : byte := byte_of_ascii (ascii_of_N (n mod 256)).

(** The three bytes of four sextets: [val := a<<18 | b<<12 | c<<6 | d]. *)
Definition quantum (a b c d : N) : N :=
  N.lor (N.lor (N.shiftl a 18) (N.shiftl b 12)) (N.lor (N.shiftl c 6) d).

Definition quantum_bytes (v : N) (dlen : nat) : bytes :=
  firstn (dlen - 1)
    [byte_of_N (N.shiftr v 16); byte_of_N (N.shiftr v 8); byte_of_N v].

Fixpoint decode_quanta (src : list ascii) : result bytes :=
  match src with
  | [] => Ok []
  | a :: b :: c :: d :: rest =>
    match sextet a, sextet b, sextet c, sextet d with
    | Some va, Some vb, Some vc, Some vd =>
      match decode_quanta rest with
      | Ok tl => Ok (quantum_bytes (quantum va vb vc vd) 4 ++ tl)
      | Failed e => Failed e
      end
    | Some va, Some vb, Some vc, None =>
      if is_pad d && match rest with [] => true | _ => false end
      then Ok (quantum_bytes (quantum va vb vc 0) 3)
      else Failed CorruptInputError
    | Some va, Some vb, None, _ =>
      if is_pad c && is_pad d && match rest with [] => true | _ => false end
      then Ok (quantum_bytes (quantum va vb 0 0) 2)
      else Failed CorruptInputError
    | _, _, _, _ => Failed CorruptInputError
    end
  | _ => Failed CorruptInputError
  end.

Definition DecodeString (s : string) : result bytes :=
  decode_quanta
    (filter (fun c => negb (is_newline c)) (list_ascii_of_string s)).

Definition bytes_of_string (s : string) : bytes :=
  map byte_of_ascii (list_ascii_of_string s).

End Go.

(** ** A serializer and a handler to run the stages on

    The serializer accepts the payloads that open with a brace; the
    handler counts its calls and rejects one event. *)

Module Sample.
Import Go.

Definition Event : Type := string.

Definition UnmarshalEvent (data : bytes) : result Event :=
  match data with
  | Byte.x7b :: _ => Ok (string_of_list_byte data)
  | _ => Failed (External "invalid character")
  end.

Definition fn (calls : nat) (event : Event) : nat * option error :=
  (S calls,
   if String.eqb event "{reject}" then Some (External "rejected") else None).

End Sample.

(** ** [base64.StdEncoding.EncodeToString], as the tests' mocks use it *)

Module Base64.
Import Go.

(** The alphabet [encodeStd]. *)
Definition encodeStd : string :=
  "ABCDEFGHIJKLMNOPQRSTUVWXYZabcdefghijklmnopqrstuvwxyz0123456789+/".

(** [enc.encode[n]] *)
Definition encode_char (n : N) : ascii :=
  match String.get (N.to_nat n) encodeStd with
  | Some c => c
  | None => "="%char
  end.

(** [enc.encode[val>>shift&0x3F]] *)
Definition sextet_at (val shift : N) : ascii :=
  encode_char (N.land (N.shiftr val shift) 63).

(** [Encoding.Encode]: three bytes to four characters, and the one or
    two bytes that remain to two or three characters and the padding. *)
Fixpoint encode_quanta (src : bytes) : list ascii :=
  match src with
  | [] => []
  | [b0] =>
    let val := N.shiftl (Byte.to_N b0) 16 in
    [sextet_at val 18; sextet_at val 12; "="%char; "="%char]
  | [b0; b1] =>
    let val :=
      N.lor (N.shiftl (Byte.to_N b0) 16) (N.shiftl (Byte.to_N b1) 8) in
    [sextet_at val 18; sextet_at val 12; sextet_at val 6; "="%char]
  | b0 :: b1 :: b2 :: rest =>
    let val :=
      N.lor (N.lor (N.shiftl (Byte.to_N b0) 16) (N.shiftl (Byte.to_N b1) 8))
        (Byte.to_N b2) in
    sextet_at val 18 :: sextet_at val 12 :: sextet_at val 6
      :: sextet_at val 0 :: encode_quanta rest
  end.

Definition EncodeToString (src : bytes) : string :=
  string_of_list_ascii (encode_quanta src).

Local Open Scope N_scope.

Lemma land_shiftl_low (a y k : N) :
  y < 2 ^ k -> N.land (N.shiftl a k) y = 0.
Proof.
  intros Hy. apply N.bits_inj_0. intros i. rewrite N.land_spec.
  destruct (N.lt_ge_cases i k) as [Hi|Hi].
  - now rewrite N.shiftl_spec_low.
  - rewrite <- (N.mod_small y (2 ^ k)) by exact Hy.
    rewrite N.mod_pow2_bits_high by exact Hi. apply andb_false_r.
Qed.

Lemma lor_shiftl_add (a y k : N) :
  y < 2 ^ k -> N.lor (N.shiftl a k) y = a * 2 ^ k + y.
Proof.
  intros Hy. rewrite <- N.lxor_lor by now apply land_shiftl_low.
  rewrite <- N.add_nocarry_lxor by now apply land_shiftl_low.
  now rewrite N.shiftl_mul_pow2.
Qed.

Lemma land_63 (x : N) : N.land x 63 = x mod 64.
Proof. change 63 with (N.ones 6). now rewrite N.land_ones. Qed.

Lemma byte_to_N_lt (b : byte) : Byte.to_N b < 256.
Proof. destruct b; reflexivity. Qed.

Lemma byte_of_N_to_N (b : byte) : byte_of_N (Byte.to_N b) = b.
Proof. destruct b; reflexivity. Qed.

(** The value of three bytes, and of four sextets. *)
Lemma three_bytes_value (n0 n1 n2 : N) :
  n1 < 256 -> n2 < 256 ->
  N.lor (N.lor (N.shiftl n0 16) (N.shiftl n1 8)) n2
  = n0 * 65536 + n1 * 256 + n2.
Proof.
  intros H1 H2. rewrite <- N.lor_assoc.
  rewrite (@lor_shiftl_add n1 n2 8) by exact H2.
  rewrite lor_shiftl_add by (change (2 ^ 8) with 256; change (2 ^ 16) with 65536; lia).
  change (2 ^ 8) with 256. change (2 ^ 16) with 65536. lia.
Qed.

Lemma quantum_value (a b c d : N) :
  b < 64 -> c < 64 -> d < 64 ->
  quantum a b c d = a * 262144 + b * 4096 + c * 64 + d.
Proof.
  intros Hb Hc Hd. unfold quantum.
  rewrite (@lor_shiftl_add c d 6) by exact Hd.
  rewrite <- N.lor_assoc.
  rewrite (@lor_shiftl_add b _ 12)
    by (change (2 ^ 6) with 64; change (2 ^ 12) with 4096; lia).
  rewrite lor_shiftl_add
    by (change (2 ^ 6) with 64; change (2 ^ 12) with 4096;
        change (2 ^ 18) with 262144; lia).
  change (2 ^ 6) with 64. change (2 ^ 12) with 4096.
  change (2 ^ 18) with 262144. lia.
Qed.

Lemma sextets_of_value (v : N) :
  v < 16777216 ->
  quantum (N.land (N.shiftr v 18) 63) (N.land (N.shiftr v 12) 63)
    (N.land (N.shiftr v 6) 63) (N.land (N.shiftr v 0) 63) = v.
Proof.
  intros Hv. rewrite !land_63, !N.shiftr_div_pow2.
  change (2 ^ 18) with 262144. change (2 ^ 12) with 4096.
  change (2 ^ 6) with 64. change (2 ^ 0) with 1. rewrite N.div_1_r.
  rewrite quantum_value by (apply N.mod_lt; discriminate).
  zify. Z.to_euclidean_division_equations. lia.
Qed.


(** Every character of the alphabet decodes to its index, and is
    neither a line break nor the padding. *)
Definition alphabet_ok (k : nat) : bool :=
  let c := encode_char (N.of_nat k) in
  match sextet c with
  | Some n => (n =? N.of_nat k) && negb (is_newline c)
  | None => false
  end.

Lemma alphabet_checked : forallb alphabet_ok (seq 0 64) = true.
Proof. vm_compute. reflexivity. Qed.

Lemma encode_char_decodes (n : N) :
  n < 64 ->
  sextet (encode_char n) = Some n /\ is_newline (encode_char n) = false.
Proof.
  intros Hn. pose proof alphabet_checked as H.
  rewrite forallb_forall in H.
  specialize (H (N.to_nat n)). unfold alphabet_ok in H.
  rewrite N2Nat.id in H.
  assert (Hin : In (N.to_nat n) (seq 0 64)) by (apply in_seq; lia).
  apply H in Hin.
  destruct (sextet (encode_char n)) as [m|]; [|discriminate].
  apply andb_true_iff in Hin. destruct Hin as [Hm Hnl].
  apply N.eqb_eq in Hm. apply negb_true_iff in Hnl. now subst m.
Qed.

Lemma sextet_at_decodes (val shift : N) :
  sextet (sextet_at val shift) = Some (N.land (N.shiftr val shift) 63)
  /\ is_newline (sextet_at val shift) = false.
Proof.
  apply encode_char_decodes. rewrite land_63. now apply N.mod_lt.
Qed.

Lemma encode_quanta_no_newline (src : bytes) (bound : nat) :
  (length src <= bound)%nat ->
  Forall (fun c => is_newline c = false) (encode_quanta src).
Proof.
  revert src. induction bound as [|bound IH]; intros src Hlen.
  - destruct src; [constructor | simpl in Hlen; lia].
  - destruct src as [|b0 [|b1 [|b2 rest]]]; cbn [encode_quanta].
    + constructor.
    + repeat constructor; apply sextet_at_decodes.
    + repeat constructor; apply sextet_at_decodes.
    + repeat (constructor; [apply sextet_at_decodes|]).
      apply IH. simpl in Hlen. lia.
Qed.

Lemma filter_all {A : Type} (f : A -> bool) (l : list A) :
  Forall (fun x => f x = true) l -> filter f l = l.
Proof.
  induction 1 as [|x l Hx _ IH]; simpl; [reflexivity|].
  now rewrite Hx, IH.
Qed.

Lemma decode_quanta_encode (bound : nat) :
  forall src,
    (length src <= bound)%nat ->
    decode_quanta (encode_quanta src) = Ok src.
Proof.
  induction bound as [|bound IH]; intros src Hlen.
  - destruct src; [reflexivity | simpl in Hlen; lia].
  - destruct src as [|b0 [|b1 [|b2 rest]]]; cbn [encode_quanta].
    + reflexivity.
    + set (val := N.shiftl (Byte.to_N b0) 16).
      cbn [decode_quanta].
      rewrite (proj1 (sextet_at_decodes val 18)),
              (proj1 (sextet_at_decodes val 12)).
      change (sextet "="%char) with (@None N).
      change (is_pad "="%char) with true. cbn [andb].
      f_equal. unfold quantum_bytes. cbn [Nat.sub firstn]. f_equal.
      transitivity (byte_of_N (Byte.to_N b0));
        [|apply byte_of_N_to_N].
      unfold byte_of_N. do 2 f_equal.
      pose proof (byte_to_N_lt b0) as H0.
      assert (Hval : val = Byte.to_N b0 * 65536)
        by (unfold val; now rewrite N.shiftl_mul_pow2).
      rewrite quantum_value
        by first [reflexivity | rewrite land_63; now apply N.mod_lt].
      rewrite !land_63, !N.shiftr_div_pow2, Hval.
      change (2 ^ 18) with 262144. change (2 ^ 12) with 4096.
      change (2 ^ 16) with 65536.
      zify. Z.to_euclidean_division_equations. lia.
    + set (val := N.lor (N.shiftl (Byte.to_N b0) 16)
                        (N.shiftl (Byte.to_N b1) 8)).
      cbn [decode_quanta].
      rewrite (proj1 (sextet_at_decodes val 18)),
              (proj1 (sextet_at_decodes val 12)),
              (proj1 (sextet_at_decodes val 6)).
      change (sextet "="%char) with (@None N).
      change (is_pad "="%char) with true. cbn [andb].
      pose proof (byte_to_N_lt b0) as H0.
      pose proof (byte_to_N_lt b1) as H1.
      assert (Hval : val = Byte.to_N b0 * 65536 + Byte.to_N b1 * 256).
      { unfold val. rewrite lor_shiftl_add.
        - rewrite N.shiftl_mul_pow2. reflexivity.
        - rewrite N.shiftl_mul_pow2. change (2 ^ 8) with 256.
          change (2 ^ 16) with 65536. lia. }
      f_equal. unfold quantum_bytes. cbn [Nat.sub firstn].
      rewrite quantum_value
        by first [reflexivity | rewrite land_63; now apply N.mod_lt].
      rewrite !land_63, !N.shiftr_div_pow2, Hval.
      change (2 ^ 18) with 262144. change (2 ^ 12) with 4096.
      change (2 ^ 16) with 65536. change (2 ^ 8) with 256.
      change (2 ^ 6) with 64.
      f_equal; [|f_equal].
      * transitivity (byte_of_N (Byte.to_N b0)); [|apply byte_of_N_to_N].
        unfold byte_of_N. do 2 f_equal.
        zify. Z.to_euclidean_division_equations. lia.
      * transitivity (byte_of_N (Byte.to_N b1)); [|apply byte_of_N_to_N].
        unfold byte_of_N. do 2 f_equal.
        zify. Z.to_euclidean_division_equations. lia.
    + set (val := N.lor (N.lor (N.shiftl (Byte.to_N b0) 16)
                               (N.shiftl (Byte.to_N b1) 8))
                        (Byte.to_N b2)).
      cbn [decode_quanta].
      rewrite (proj1 (sextet_at_decodes val 18)),
              (proj1 (sextet_at_decodes val 12)),
              (proj1 (sextet_at_decodes val 6)),
              (proj1 (sextet_at_decodes val 0)).
      rewrite IH by (simpl in Hlen; lia).
      pose proof (byte_to_N_lt b0) as H0.
      pose proof (byte_to_N_lt b1) as H1.
      pose proof (byte_to_N_lt b2) as H2.
      assert (Hval : val = Byte.to_N b0 * 65536 + Byte.to_N b1 * 256
                           + Byte.to_N b2)
        by (unfold val; now apply three_bytes_value).
      rewrite sextets_of_value by (rewrite Hval; lia).
      f_equal. unfold quantum_bytes. cbn [Nat.sub firstn app].
      rewrite !N.shiftr_div_pow2, Hval.
      change (2 ^ 16) with 65536. change (2 ^ 8) with 256.
      f_equal; [|f_equal; [|f_equal]].
      * transitivity (byte_of_N (Byte.to_N b0)); [|apply byte_of_N_to_N].
        unfold byte_of_N. do 2 f_equal.
        zify. Z.to_euclidean_division_equations. lia.
      * transitivity (byte_of_N (Byte.to_N b1)); [|apply byte_of_N_to_N].
        unfold byte_of_N. do 2 f_equal.
        zify. Z.to_euclidean_division_equations. lia.
      * transitivity (byte_of_N (Byte.to_N b2)); [|apply byte_of_N_to_N].
        unfold byte_of_N. do 2 f_equal.
        zify. Z.to_euclidean_division_equations. lia.
Qed.

Lemma decode_encode (src : bytes) :
  DecodeString (EncodeToString src) = Ok src.
Proof.
  unfold DecodeString, EncodeToString.
  rewrite list_ascii_of_string_of_list_ascii.
  rewrite filter_all.
  - now apply decode_quanta_encode with (length src).
  - pose proof (@encode_quanta_no_newline src (length src) (le_n _)) as H.
    eapply Forall_impl; [|exact H]. intros c Hc. simpl in Hc.
    now rewrite Hc.
Qed.

(** X13.  What [EncodeToString] makes of any bytes, [DecodeString]
    turns back into these bytes: the body the test's mock builds for an
    event is decoded by [handleMessage] to the serialized record. *)
Theorem DecodeString_EncodeToString :
  forall src : bytes, DecodeString (EncodeToString src) = Ok src.
Proof.
  intros src. unfold DecodeString, EncodeToString.
  rewrite list_ascii_of_string_of_list_ascii.
  assert (Hplain : Forall (fun c => negb (is_newline c) = true)
                     (encode_quanta src)).
  { eapply Forall_impl;
      [|exact (@encode_quanta_no_newline src (length src) (le_n _))].
    intros c Hc. simpl in Hc. now rewrite Hc. }
  rewrite (filter_all _ Hplain).
  now apply decode_quanta_encode with (length src).
Qed.

End Base64.

(** ** Package [queue] *)

Module Queue.
Import Go.

(** [sqs.Message], with the two fields the package reads.  Both are
    [*string] in the SDK; a [*sqs.Message] is an [option Message]. *)
Record Message : Type := {
  Body : option string;
  ReceiptHandle : option string
}.

(** The calls to the [printf] option, by call site. *)
Inductive LogLine : Type :=
| LogReceived (n : nat)          (* "received %v messages" *)
| LogDecodeFailed (e : error)    (* "unable to decode sqs body - %v\n" *)
| LogHandleFailed (e : error)    (* "unable to handle event - %v" *)
| LogDeleteFailed (e : error)    (* "delete messages failed - %v" *)
| LogDeleted (n : nat).          (* "deleted %v messages" *)

(** *** The supervisor: [errgroup.Group] and [Subscription.Close]

    [Group.Go] runs a stage and keeps the first non-nil error a stage
    returns ([errOnce]), cancelling the shared context with it;
    [Group.Wait] blocks until every stage has returned and gives that
    error.  [exits] lists what the stages returned, in the order they
    returned. *)
Record Group : Type := {
  group_err : option error;
  group_ctx : Context
}.

Definition WithContext : Group := {| group_err := None; group_ctx := Live |}.

Definition stage_returned (g : Group) (r : option error) : Group :=
  match r, group_err g with
  | Some e, None => {| group_err := Some e; group_ctx := Cancelled |}
  | _, _ => g
  end.

Definition Wait (g : Group) (exits : list (option error)) : option error :=
  group_err (fold_left stage_returned exits g).

(** [s.cancel(); return s.group.Wait()] *)
Definition Close (g : Group) (exits : list (option error)) : option error :=
  Wait {| group_err := group_err g; group_ctx := Cancelled |} exits.

(** *** The receive stage *)

(** One turn of [receiveLoop]'s [for], as the environment shapes it. *)
Record ReceiveRound : Type := {
  round_result : result (list (option Message));
    (* api.ReceiveMessageWithContext: err, or output.Messages *)
  round_backoff_cancelled : bool;
    (* after an error: true when <-ctx.Done() wins over time.After(15s) *)
  round_sent : nat;
    (* how many sends on [receive] proceed before <-ctx.Done() is taken *)
  round_done_after : bool
    (* the closing non-blocking select finds ctx.Done() closed *)
}.

Record ReceiveWorld : Type := {
  received : list (option Message);   (* sent on the received channel *)
  receive_calls : nat;                (* ReceiveMessage calls issued *)
  receive_log : list LogLine
}.

Definition receive_called (w : ReceiveWorld) : ReceiveWorld :=
  {| received := received w;
     receive_calls := S (receive_calls w);
     receive_log := receive_log w |}.

Definition receive_printf (w : ReceiveWorld) (ms : list (option Message))
  : ReceiveWorld :=
  match length ms with
  | O => w
  | v => {| received := received w;
            receive_calls := receive_calls w;
            receive_log := receive_log w ++ [LogReceived v] |}
  end.

Definition receive_send (w : ReceiveWorld) (m : option Message)
  : ReceiveWorld :=
  {| received := received w ++ [m];
     receive_calls := receive_calls w;
     receive_log := receive_log w |}.

(** [for _, m := range output.Messages { select { ... } }]: [false]
    when the loop is left through [<-ctx.Done()]. *)
Fixpoint send_messages (w : ReceiveWorld) (ms : list (option Message))
  (proceed : nat) : ReceiveWorld * bool :=
  match ms with
  | [] => (w, true)
  | m :: ms' =>
    match proceed with
    | O => (w, false)
    | S k => send_messages (receive_send w m) ms' k
    end
  end.

Fixpoint receiveLoop (w : ReceiveWorld) (rounds : list ReceiveRound)
  : ReceiveWorld * outcome :=
  match rounds with
  | [] => (w, Running)
  | r :: rest =>
    let w1 := receive_called w in
    match round_result r with
    | Failed _ =>
      if round_backoff_cancelled r
      then (w1, Returned (ctx_Err Cancelled))
      else receiveLoop w1 rest
    | Ok ms =>
      match send_messages (receive_printf w1 ms) ms (round_sent r) with
      | (w2, false) => (w2, Returned (ctx_Err Cancelled))
      | (w2, true) =>
        if round_done_after r
        then (w2, Returned (ctx_Err Cancelled))
        else receiveLoop w2 rest
      end
    end
  end.

(** [Wait] gives the error the group already holds, else the first
    non-nil error in the order the stages returned. *)
Fixpoint first_error (exits : list (option error)) : option error :=
  match exits with
  | [] => None
  | Some e :: _ => Some e
  | None :: rest => first_error rest
  end.

Lemma stage_returned_holds (exits : list (option error)) :
  forall g e,
    group_err g = Some e ->
    group_err (fold_left stage_returned exits g) = Some e.
Proof.
  induction exits as [|r exits IH]; intros g e Hg; simpl.
  - exact Hg.
  - apply IH. unfold stage_returned. rewrite Hg. now destruct r.
Qed.

Lemma Wait_first_error (exits : list (option error)) :
  forall g,
    Wait g exits =
    match group_err g with
    | Some e => Some e
    | None => first_error exits
    end.
Proof.
  unfold Wait. induction exits as [|r exits IH]; intros g; simpl.
  - now destruct (group_err g).
  - destruct (group_err g) as [e|] eqn:Hg.
    + apply stage_returned_holds. unfold stage_returned. rewrite Hg.
      now destruct r.
    + destruct r as [e|].
      * apply stage_returned_holds. unfold stage_returned. now rewrite Hg.
      * rewrite IH. unfold stage_returned. now rewrite Hg.
Qed.

Lemma first_error_In (exits : list (option error)) (e : error) :
  In (Some e) exits -> first_error exits <> None.
Proof.
  induction exits as [|r exits IH]; simpl; [tauto|].
  intros [->|Hin]; [discriminate|].
  destruct r; [discriminate | auto].
Qed.

Lemma Close_not_nil (g : Group) (exits : list (option error)) (e : error) :
  In (Some e) exits -> Close g exits <> None.
Proof.
  intros Hin. unfold Close. rewrite Wait_first_error. simpl.
  destruct (group_err g); [discriminate|].
  now apply first_error_In with e.
Qed.

(** *** The handle stage *)

Section HandleStage.

Variable Event : Type.
(** [serializer.UnmarshalEvent(eventsource.Record{Data: data})] *)
Variable UnmarshalEvent : bytes -> result Event.
(** The application handler [fn], a closure over state of its own. *)
Variable HState : Type.
Variable fn : HState -> Event -> HState * option error.

Record HandleWorld : Type := {
  handler_state : HState;
  unmarshalled : list bytes;            (* arguments of UnmarshalEvent *)
  dispatched : list Event;              (* arguments of fn *)
  handle_log : list LogLine;
  completed : list (option Message)     (* sent on the completed channel *)
}.

Definition handle_printf (w : HandleWorld) (l : LogLine) : HandleWorld :=
  {| handler_state := handler_state w;
     unmarshalled := unmarshalled w;
     dispatched := dispatched w;
     handle_log := handle_log w ++ [l];
     completed := completed w |}.

Definition unmarshal_called (w : HandleWorld) (data : bytes) : HandleWorld :=
  {| handler_state := handler_state w;
     unmarshalled := unmarshalled w ++ [data];
     dispatched := dispatched w;
     handle_log := handle_log w;
     completed := completed w |}.

Definition fn_called (w : HandleWorld) (ev : Event) (st : HState)
  : HandleWorld :=
  {| handler_state := st;
     unmarshalled := unmarshalled w;
     dispatched := dispatched w ++ [ev];
     handle_log := handle_log w;
     completed := completed w |}.

Definition completed_send (w : HandleWorld) (v : option Message)
  : HandleWorld :=
  {| handler_state := handler_state w;
     unmarshalled := unmarshalled w;
     dispatched := dispatched w;
     handle_log := handle_log w;
     completed := completed w ++ [v] |}.

Definition handleMessage (w : HandleWorld) (m : option Message)
  : HandleWorld * option error :=
  match m with
  | None => (w, None)
  | Some msg =>
    match Body msg with
    | None => (w, None)
    | Some body =>
      match DecodeString body with
      | Failed err => (handle_printf w (LogDecodeFailed err), None)
      | Ok data =>
        let w1 := unmarshal_called w data in
        match UnmarshalEvent data with
        | Failed _ => (w1, Some (UnableToUnmarshal body))
        | Ok event =>
          let (st, err) := fn (handler_state w1) event in
          (fn_called w1 event st, err)
        end
      end
    end
  end.

(** The arms of [handleLoop]'s selects that the environment lets proceed. *)
Inductive handle_arm : Type :=
| HDone
    (* outer select: <-ctx.Done() *)
| HReceived (v : option Message) (sent : bool).
    (* outer select: v := <-received; then, when v was handled, the
       inner select: completed <- v (sent) or <-ctx.Done() *)

Fixpoint handleLoop (w : HandleWorld) (arms : list handle_arm)
  : HandleWorld * outcome :=
  match arms with
  | [] => (w, Running)
  | HDone :: _ => (w, Returned (ctx_Err Cancelled))
  | HReceived v sent :: rest =>
    match handleMessage w v with
    | (w1, Some err) =>
      (handle_printf w1 (LogHandleFailed err), Returned (Some err))
    | (w1, None) =>
      if sent
      then handleLoop (completed_send w1 v) rest
      else (w1, Returned (ctx_Err Cancelled))
    end
  end.

(** The condition of [handleMessage]'s first test:
    [m == nil || m.Body == nil]. *)
Definition nil_or_no_body (v : option Message) : Prop :=
  match v with
  | None => True
  | Some m => Body m = None
  end.

(** Why [handleLoop] returned [r] on the arm [a], taken in world [w]. *)
Inductive handle_stop (w : HandleWorld)
  : handle_arm -> option error -> Prop :=
| StopDone :
    handle_stop w HDone (Some Canceled)
| StopSend v :
    snd (handleMessage w v) = None ->
    handle_stop w (HReceived v false) (Some Canceled)
| StopUnmarshal m body data err sent :
    Body m = Some body ->
    DecodeString body = Ok data ->
    UnmarshalEvent data = Failed err ->
    handle_stop w (HReceived (Some m) sent) (Some (UnableToUnmarshal body))
| StopHandler m body data event st err sent :
    Body m = Some body ->
    DecodeString body = Ok data ->
    UnmarshalEvent data = Ok event ->
    fn (handler_state w) event = (st, Some err) ->
    handle_stop w (HReceived (Some m) sent) (Some err).

Lemma handleMessage_error (w w1 : HandleWorld) (v : option Message)
  (err : error) :
  handleMessage w v = (w1, Some err) ->
  forall sent, handle_stop w (HReceived v sent) (Some err).
Proof.
  unfold handleMessage. intros H sent.
  destruct v as [m|]; [|discriminate].
  destruct (Body m) as [body|] eqn:Hb; [|discriminate].
  destruct (DecodeString body) as [data|e] eqn:Hd; [|discriminate].
  destruct (UnmarshalEvent data) as [event|e] eqn:Hu.
  - simpl in H. destruct (fn (handler_state w) event) as [st r] eqn:Hf.
    inversion H; subst. eapply StopHandler; eauto.
  - inversion H; subst. eapply StopUnmarshal; eauto.
Qed.

Lemma handleLoop_returns_on_last_arm (arms : list handle_arm) :
  forall w w' r,
    handleLoop w arms = (w', Returned r) ->
    exists pre a post w1,
      arms = pre ++ a :: post
      /\ handleLoop w pre = (w1, Running)
      /\ handle_stop w1 a r.
Proof.
  induction arms as [|a arms IH]; intros w w' r H; simpl in H.
  - discriminate.
  - destruct a as [|v sent].
    + injection H as <- <-. exists [], HDone, arms, w. repeat split.
      constructor.
    + destruct (handleMessage w v) as [w1 [err|]] eqn:Hm.
      * injection H as <- <-.
        exists [], (HReceived v sent), arms, w. repeat split.
        eapply handleMessage_error; eauto.
      * destruct sent.
        -- destruct (IH _ _ _ H) as (pre & a & post & w2 & -> & Hpre & Hstop).
           exists (HReceived v true :: pre), a, post, w2. repeat split; auto.
           simpl. now rewrite Hm.
        -- injection H as <- <-.
           exists [], (HReceived v false), arms, w. repeat split.
           constructor. now rewrite Hm.
Qed.

(** C1, as amended.  A message whose body fails base64 decoding is
    logged and handled no further: the serializer and the application
    handler are not invoked and [handleMessage] returns nil.  [handleLoop]
    then treats it as any handled message: it sends it on the completed
    channel (so it is acknowledged) and goes on without an error. *)
Theorem undecodable_body_is_logged_and_forwarded :
  forall (w : HandleWorld) (m : Message) (body : string) (err : error),
    Body m = Some body ->
    DecodeString body = Failed err ->
    let logged := handle_printf w (LogDecodeFailed err) in
    handleMessage w (Some m) = (logged, None)
    /\ unmarshalled logged = unmarshalled w
    /\ dispatched logged = dispatched w
    /\ handleLoop w [HReceived (Some m) true]
       = (completed_send logged (Some m), Running)
    /\ forall rest,
         handleLoop w (HReceived (Some m) true :: rest)
         = handleLoop (completed_send logged (Some m)) rest.
Proof.
  intros w m body err Hb Hd logged.
  assert (Hm : handleMessage w (Some m) = (logged, None)).
  { unfold handleMessage. now rewrite Hb, Hd. }
  repeat split; auto.
  - cbn [handleLoop]. now rewrite Hm.
  - intros rest. cbn [handleLoop]. now rewrite Hm.
Qed.

(** C10.  A nil message, or one with a nil body, counts as handled:
    [handleMessage] returns nil and leaves the world as it was (no
    serializer call, no handler call, no log line), and [handleLoop]
    sends that message on the completed channel and goes on. *)
Theorem nil_message_counts_as_handled :
  forall (w : HandleWorld) (v : option Message),
    nil_or_no_body v ->
    handleMessage w v = (w, None)
    /\ handleLoop w [HReceived v true] = (completed_send w v, Running)
    /\ completed (completed_send w v) = completed w ++ [v]
    /\ forall rest,
         handleLoop w (HReceived v true :: rest)
         = handleLoop (completed_send w v) rest.
Proof.
  intros w v Hv.
  assert (Hm : handleMessage w v = (w, None)).
  { destruct v as [m|]; simpl in *; [now rewrite Hv | reflexivity]. }
  repeat split; auto.
  - cbn [handleLoop]. now rewrite Hm.
  - intros rest. cbn [handleLoop]. now rewrite Hm.
Qed.

(** C7.  When the decoded payload of a message fails deserialization,
    and when the application handler returns an error on its event,
    [handleLoop] returns a non-nil error at that message, whatever arms
    would have followed: nothing more is dispatched and nothing is sent
    on the completed channel.  [Close] then returns a non-nil error.
    And [handleLoop] returns for no other reason than these two and a
    [<-ctx.Done()] arm of one of its selects. *)
Theorem handleLoop_escalates_unmarshal_and_handler_errors :
  (forall (w : HandleWorld) (m : Message) body data err sent,
      Body m = Some body ->
      DecodeString body = Ok data ->
      UnmarshalEvent data = Failed err ->
      exists w',
        (forall rest,
            handleLoop w (HReceived (Some m) sent :: rest)
            = (w', Returned (Some (UnableToUnmarshal body))))
        /\ dispatched w' = dispatched w
        /\ completed w' = completed w)
  /\ (forall (w : HandleWorld) (m : Message) body data event st err sent,
      Body m = Some body ->
      DecodeString body = Ok data ->
      UnmarshalEvent data = Ok event ->
      fn (handler_state w) event = (st, Some err) ->
      exists w',
        (forall rest,
            handleLoop w (HReceived (Some m) sent :: rest)
            = (w', Returned (Some err)))
        /\ dispatched w' = dispatched w ++ [event]
        /\ completed w' = completed w)
  /\ (forall (w w' : HandleWorld) arms r g exits,
      handleLoop w arms = (w', Returned r) ->
      In r exits ->
      r <> None /\ Close g exits <> None)
  /\ (forall (w w' : HandleWorld) arms r,
      handleLoop w arms = (w', Returned r) ->
      exists pre a post w1,
        arms = pre ++ a :: post
        /\ handleLoop w pre = (w1, Running)
        /\ handle_stop w1 a r).
Proof.
  split; [|split; [|split]].
  - intros w m body data err sent Hb Hd Hu.
    eexists. split; [|split].
    + intros rest. simpl. now rewrite Hb, Hd, Hu.
    + reflexivity.
    + reflexivity.
  - intros w m body data event st err sent Hb Hd Hu Hf.
    eexists. split; [|split].
    + intros rest. simpl. rewrite Hb, Hd, Hu. simpl. now rewrite Hf.
    + reflexivity.
    + reflexivity.
  - intros w w' arms r g exits H Hin.
    destruct (handleLoop_returns_on_last_arm _ _ H)
      as (pre & a & post & w1 & _ & _ & Hstop).
    assert (Hr : exists e, r = Some e) by (inversion Hstop; eauto).
    destruct Hr as [e ->]. split; [discriminate|].
    now apply Close_not_nil with e.
  - intros w w' arms r H. now apply handleLoop_returns_on_last_arm with w'.
Qed.

End HandleStage.

(** The handle stage on the sample serializer and handler. *)

Definition handle_start : HandleWorld Sample.Event nat :=
  {| handler_state := 0;
     unmarshalled := [];
     dispatched := [];
     handle_log := [];
     completed := [] |}.

(** A body that is not base64. *)
Definition garbled : Message :=
  {| Body := Some "!!!"; ReceiptHandle := Some "rh-1" |}.

(** base64 of [event-A], which the sample serializer refuses. *)
Definition unreadable : Message :=
  {| Body := Some "ZXZlbnQtQQ=="; ReceiptHandle := Some "rh-2" |}.

(** base64 of [{reject}], which the sample handler refuses. *)
Definition rejected : Message :=
  {| Body := Some "e3JlamVjdH0="; ReceiptHandle := Some "rh-3" |}.

(** base64 of [{blah}]. *)
Definition blah : Message :=
  {| Body := Some "e2JsYWh9"; ReceiptHandle := Some "rh-4" |}.

Definition bodiless : Message :=
  {| Body := None; ReceiptHandle := Some "rh-5" |}.

Example handles_blah :
  handleLoop Sample.UnmarshalEvent Sample.fn handle_start
    [HReceived (Some blah) true]
  = ({| handler_state := 1;
        unmarshalled := [bytes_of_string "{blah}"];
        dispatched := ["{blah}"];
        handle_log := [];
        completed := [Some blah] |}, Running).
Proof. reflexivity. Qed.

(** C1, the claim as stated fails: the message with the body [!!!],
    which is not base64, is sent on the completed channel. *)
Lemma undecodable_body_reaches_completed :
  DecodeString "!!!" = Failed CorruptInputError
  /\ handleLoop Sample.UnmarshalEvent Sample.fn handle_start
       [HReceived (Some garbled) true]
     = ({| handler_state := 0;
           unmarshalled := [];
           dispatched := [];
           handle_log := [LogDecodeFailed CorruptInputError];
           completed := [Some garbled] |}, Running).
Proof. split; reflexivity. Qed.

Lemma undecodable_body_witness :
  Body garbled = Some "!!!"
  /\ DecodeString "!!!" = Failed CorruptInputError
  /\ handleLoop Sample.UnmarshalEvent Sample.fn handle_start
       [HReceived (Some garbled) true; HReceived (Some blah) true]
     = handleLoop Sample.UnmarshalEvent Sample.fn
         (completed_send
            (handle_printf handle_start (LogDecodeFailed CorruptInputError))
            (Some garbled))
         [HReceived (Some blah) true].
Proof.
  split; [reflexivity|]. split; [reflexivity|].
  destruct (undecodable_body_is_logged_and_forwarded
              Sample.UnmarshalEvent Sample.fn handle_start garbled
              eq_refl eq_refl) as (_ & _ & _ & _ & H).
  apply H.
Defined.

Lemma nil_message_witness :
  nil_or_no_body (Some bodiless)
  /\ nil_or_no_body None
  /\ handleMessage Sample.UnmarshalEvent Sample.fn handle_start (Some bodiless)
     = (handle_start, None)
  /\ completed
       (fst (handleLoop Sample.UnmarshalEvent Sample.fn handle_start
               [HReceived (Some bodiless) true]))
     = [Some bodiless].
Proof.
  split; [reflexivity|]. split; [exact I|].
  destruct (nil_message_counts_as_handled
              Sample.UnmarshalEvent Sample.fn handle_start
              (Some bodiless) eq_refl) as (Hm & Hl & _ & _).
  split; [exact Hm|]. now rewrite Hl.
Defined.

Lemma escalation_witness :
  (exists w',
      (forall rest,
          handleLoop Sample.UnmarshalEvent Sample.fn handle_start
            (HReceived (Some unreadable) true :: rest)
          = (w', Returned (Some (UnableToUnmarshal "ZXZlbnQtQQ=="))))
      /\ dispatched w' = []
      /\ completed w' = [])
  /\ (exists w',
      (forall rest,
          handleLoop Sample.UnmarshalEvent Sample.fn handle_start
            (HReceived (Some rejected) true :: rest)
          = (w', Returned (Some (External "rejected"))))
      /\ dispatched w' = ["{reject}"]
      /\ completed w' = []).
Proof.
  destruct (handleLoop_escalates_unmarshal_and_handler_errors
              Sample.UnmarshalEvent Sample.fn) as (Hu & Hh & _ & _).
  split.
  - exact (Hu handle_start unreadable _ _ _ true eq_refl eq_refl eq_refl).
  - exact (Hh handle_start rejected _ _ _ _ _ true
              eq_refl eq_refl eq_refl eq_refl).
Defined.

(** *** The acknowledge stage *)

(** [sqs.DeleteMessageBatchRequestEntry] *)
Record Entry : Type := {
  Id : string;
  EntryReceiptHandle : option string
}.

(** One [api.DeleteMessageBatchWithContext] call as the environment
    answers it: the error it returns, and, when it failed, whether
    [<-ctx.Done()] wins over [time.After(15s)] in the pause. *)
Record DeleteAttempt : Type := {
  attempt_err : option error;
  attempt_cancelled : bool
}.

Record DeleteWorld : Type := {
  Entries : list Entry;               (* input.Entries *)
  delete_calls : list (list Entry);   (* the Entries of each call issued *)
  delete_log : list LogLine
}.

(** The arms of [deleteLoop]'s select. *)
Inductive delete_arm : Type :=
| DDone                               (* <-ctx.Done() *)
| DTick                               (* <-ticker.C *)
| DCompleted (v : option Message).    (* v := <-completed *)

(** [input := &sqs.DeleteMessageBatchInput{QueueUrl: queueUrl}] *)
Definition delete_start : DeleteWorld :=
  {| Entries := []; delete_calls := []; delete_log := [] |}.

Section DeleteStage.

(** The answer to the k-th delete call of the run, k counted from 0. *)
Variable api : nat -> DeleteAttempt.

Definition delete_called (w : DeleteWorld) : DeleteWorld :=
  {| Entries := Entries w;
     delete_calls := delete_calls w ++ [Entries w];
     delete_log := delete_log w |}.

Definition delete_printf (w : DeleteWorld) (l : LogLine) : DeleteWorld :=
  {| Entries := Entries w;
     delete_calls := delete_calls w;
     delete_log := delete_log w ++ [l] |}.

Definition reset_entries (w : DeleteWorld) : DeleteWorld :=
  {| Entries := [];
     delete_calls := delete_calls w;
     delete_log := delete_log w |}.

(** [for attempt := 1; attempt <= 3; attempt++], with [n] the number of
    attempts not yet made.  [false] when the closure returns from the
    pause on [<-ctx.Done()]; [true] when the [for] is left by [break] or
    because [attempt] passed 3. *)
Fixpoint delete_attempts (n : nat) (w : DeleteWorld)
  : DeleteWorld * bool :=
  match n with
  | O => (w, true)
  | S n' =>
    let answer := api (length (delete_calls w)) in
    let w1 := delete_called w in
    match attempt_err answer with
    | Some err =>
      let w2 := delete_printf w1 (LogDeleteFailed err) in
      if attempt_cancelled answer
      then (w2, false)
      else delete_attempts n' w2
    | None =>
      (delete_printf w1 (LogDeleted (length (Entries w1))), true)
    end
  end.

(** The closure [deleteMessages] of [deleteLoop]. *)
Definition deleteMessages (w : DeleteWorld) : DeleteWorld :=
  match Entries w with
  | [] => w
  | _ :: _ =>
    match delete_attempts 3 w with
    | (w1, true) => reset_entries w1
    | (w1, false) => w1
    end
  end.

Definition append_entry (w : DeleteWorld) (v : Message) : DeleteWorld :=
  {| Entries := Entries w ++
       [{| Id := Itoa (length (Entries w));
           EntryReceiptHandle := ReceiptHandle v |}];
     delete_calls := delete_calls w;
     delete_log := delete_log w |}.

(** The body of the select statement. *)
Definition delete_select (w : DeleteWorld) (a : delete_arm)
  : DeleteWorld * outcome :=
  match a with
  | DDone => (w, Returned (ctx_Err Cancelled))
  | DTick => (deleteMessages w, Running)
  | DCompleted None => (w, Panicked)      (* v.ReceiptHandle on a nil v *)
  | DCompleted (Some v) => (append_entry w v, Running)
  end.

(** [if len(input.Entries) == 10 { deleteMessages() }] *)
Definition flush_if_full (w : DeleteWorld) : DeleteWorld :=
  if (length (Entries w) =? 10)%nat then deleteMessages w else w.

(** The [for] of [deleteLoop]. *)
Fixpoint delete_for (w : DeleteWorld) (arms : list delete_arm)
  : DeleteWorld * outcome :=
  match arms with
  | [] => (w, Running)
  | a :: rest =>
    match delete_select w a with
    | (w1, Running) => delete_for (flush_if_full w1) rest
    | stopped => stopped
    end
  end.

(** [deleteLoop]: the [for], and the deferred [deleteMessages()] once
    the function is left. *)
Definition deleteLoop (w : DeleteWorld) (arms : list delete_arm)
  : DeleteWorld * outcome :=
  match delete_for w arms with
  | (w1, Running) => (w1, Running)
  | (w1, stopped) => (deleteMessages w1, stopped)
  end.

(** No delete call of the run is cut short by cancellation. *)
Definition never_cancelled : Prop :=
  forall k, attempt_cancelled (api k) = false.

(** The completed messages [vs] as arms of the select, in order. *)
Definition arrivals (vs : list Message) : list delete_arm :=
  map (fun v => DCompleted (Some v)) vs.

Lemma delete_attempts_calls (n : nat) :
  forall w w' finished,
    delete_attempts n w = (w', finished) ->
    Entries w' = Entries w
    /\ exists k,
         k <= n /\ (0 < n -> 0 < k)
         /\ delete_calls w' = delete_calls w ++ repeat (Entries w) k.
Proof.
  induction n as [|n IH]; intros w w' finished H; simpl in H.
  - injection H as <- <-. split; [reflexivity|].
    exists 0. simpl. rewrite app_nil_r. repeat split; lia.
  - destruct (attempt_err (api (length (delete_calls w)))) as [err|].
    + destruct (attempt_cancelled (api (length (delete_calls w)))).
      * injection H as <- <-. split; [reflexivity|].
        exists 1. repeat split; lia.
      * apply IH in H. simpl in H. destruct H as (He & k & Hk & _ & Hc).
        split; [exact He|].
        exists (S k). repeat split; try lia.
        rewrite Hc, <- app_assoc. reflexivity.
    + injection H as <- <-. split; [reflexivity|].
      exists 1. repeat split; lia.
Qed.

Lemma delete_attempts_finish (n : nat) :
  never_cancelled ->
  forall w, snd (delete_attempts n w) = true.
Proof.
  intros Hnc. induction n as [|n IH]; intros w; simpl.
  - reflexivity.
  - destruct (attempt_err (api (length (delete_calls w)))).
    + rewrite Hnc. apply IH.
    + reflexivity.
Qed.

Lemma deleteMessages_clears (w : DeleteWorld) :
  never_cancelled -> Entries (deleteMessages w) = [].
Proof.
  intros Hnc. unfold deleteMessages.
  destruct (Entries w) as [|e es] eqn:He; [exact He|].
  pose proof (delete_attempts_finish 3 Hnc w) as Hf.
  destruct (delete_attempts 3 w) as [w1 finished]. simpl in Hf.
  rewrite Hf. reflexivity.
Qed.

Lemma deleteMessages_calls (w : DeleteWorld) :
  Entries w <> [] ->
  exists k,
    1 <= k <= 3
    /\ delete_calls (deleteMessages w)
       = delete_calls w ++ repeat (Entries w) k.
Proof.
  intros Hne. unfold deleteMessages.
  destruct (Entries w) as [|e es] eqn:He; [contradiction|].
  destruct (delete_attempts 3 w) as [w1 finished] eqn:Ha.
  apply delete_attempts_calls in Ha.
  destruct Ha as (_ & k & Hk & Hpos & Hc).
  exists k. rewrite He in Hc.
  split; [lia|]. now destruct finished.
Qed.

Lemma flush_if_full_below (w : DeleteWorld) :
  length (Entries w) <> 10 -> flush_if_full w = w.
Proof.
  intros H. unfold flush_if_full.
  now destruct (Nat.eqb_spec (length (Entries w)) 10).
Qed.

Lemma flush_if_full_at (w : DeleteWorld) :
  length (Entries w) = 10 -> flush_if_full w = deleteMessages w.
Proof.
  intros H. unfold flush_if_full. now rewrite H.
Qed.

Lemma append_entry_length (w : DeleteWorld) (v : Message) :
  length (Entries (append_entry w v)) = S (length (Entries w)).
Proof. simpl. rewrite length_app. simpl. lia. Qed.

Lemma delete_for_below_ten (arms : list delete_arm) :
  never_cancelled ->
  forall w,
    length (Entries w) < 10 ->
    length (Entries (fst (delete_for w arms))) < 10.
Proof.
  intros Hnc. induction arms as [|a arms IH]; intros w Hw; simpl.
  - exact Hw.
  - destruct a as [| |[v|]]; simpl; try exact Hw.
    + apply IH. rewrite flush_if_full_below;
        rewrite deleteMessages_clears by exact Hnc; simpl; lia.
    + apply IH.
      pose proof (append_entry_length w v) as Hl.
      destruct (Nat.eq_dec (length (Entries (append_entry w v))) 10) as [E|E].
      * rewrite flush_if_full_at by exact E.
        rewrite deleteMessages_clears by exact Hnc. simpl. lia.
      * rewrite flush_if_full_below by exact E. lia.
Qed.

(** The entries the arrivals [vs] add to a batch that holds [n]. *)
Fixpoint numbered (n : nat) (vs : list Message) : list Entry :=
  match vs with
  | [] => []
  | v :: rest =>
    {| Id := Itoa n; EntryReceiptHandle := ReceiptHandle v |}
      :: numbered (S n) rest
  end.

Lemma numbered_ids (vs : list Message) :
  forall n, map Id (numbered n vs) = map Itoa (seq n (length vs)).
Proof. induction vs as [|v vs IH]; intros n; simpl; [|rewrite IH]; auto. Qed.

Lemma numbered_handles (vs : list Message) :
  forall n, map EntryReceiptHandle (numbered n vs) = map ReceiptHandle vs.
Proof. induction vs as [|v vs IH]; intros n; simpl; [|rewrite IH]; auto. Qed.

Lemma numbered_length (vs : list Message) :
  forall n, length (numbered n vs) = length vs.
Proof. induction vs as [|v vs IH]; intros n; simpl; [|rewrite IH]; auto. Qed.

(** Fewer than ten entries after the arrivals: no flush, no call. *)
Lemma delete_for_arrivals (vs : list Message) :
  forall w rest,
    length (Entries w) + length vs < 10 ->
    delete_for w (arrivals vs ++ rest)
    = delete_for
        {| Entries := Entries w ++ numbered (length (Entries w)) vs;
           delete_calls := delete_calls w;
           delete_log := delete_log w |} rest.
Proof.
  induction vs as [|v vs IH]; intros w rest Hlen; simpl.
  - rewrite app_nil_r. now destruct w.
  - simpl in Hlen. rewrite flush_if_full_below
      by (rewrite append_entry_length; lia).
    rewrite IH by (rewrite append_entry_length; lia).
    rewrite append_entry_length. simpl.
    now rewrite <- app_assoc.
Qed.

Lemma numbered_app (a b : list Message) :
  forall n, numbered n (a ++ b) = numbered n a ++ numbered (n + length a) b.
Proof.
  induction a as [|v a IH]; intros n; simpl.
  - now rewrite Nat.add_0_r.
  - rewrite IH. now rewrite Nat.add_succ_r.
Qed.

Lemma deleteMessages_first_try (w : DeleteWorld) :
  Entries w <> [] ->
  attempt_err (api (length (delete_calls w))) = None ->
  deleteMessages w
  = {| Entries := [];
       delete_calls := delete_calls w ++ [Entries w];
       delete_log := delete_log w ++ [LogDeleted (length (Entries w))] |}.
Proof.
  intros Hne Hok. unfold deleteMessages.
  destruct (Entries w) as [|e es] eqn:He; [contradiction|].
  simpl. rewrite Hok. unfold reset_entries. simpl. now rewrite He.
Qed.

Lemma delete_attempts_retry (n : nat) (w : DeleteWorld) (err : error) :
  attempt_err (api (length (delete_calls w))) = Some err ->
  attempt_cancelled (api (length (delete_calls w))) = false ->
  delete_attempts (S n) w
  = delete_attempts n (delete_printf (delete_called w) (LogDeleteFailed err)).
Proof. intros He Hc. simpl. now rewrite He, Hc. Qed.

(** C3, as amended.  When between one and ten completed messages reach
    an empty batch and no tick comes between them, the next flush (the
    tick that follows, or at once when the tenth entry arrives), if its
    delete call succeeds, issues that one call: it carries one entry per
    message, in arrival order, with the ids 0, 1, ..., N-1 and the
    messages' receipt handles, and leaves the batch empty. *)
Theorem one_flush_sends_the_batch_numbered_by_position :
  forall (w : DeleteWorld) (vs : list Message),
    Entries w = [] ->
    1 <= length vs <= 10 ->
    attempt_err (api (length (delete_calls w))) = None ->
    let trigger := if (length vs =? 10)%nat then [] else [DTick] in
    exists (w' : DeleteWorld) (batch : list Entry),
      delete_for w (arrivals vs ++ trigger) = (w', Running)
      /\ delete_calls w' = delete_calls w ++ [batch]
      /\ length batch = length vs
      /\ map Id batch = map Itoa (seq 0 (length vs))
      /\ map EntryReceiptHandle batch = map ReceiptHandle vs
      /\ Entries w' = [].
Proof.
  intros w vs Hempty Hlen Hok trigger.
  exists {| Entries := [];
            delete_calls := delete_calls w ++ [numbered 0 vs];
            delete_log := delete_log w ++ [LogDeleted (length vs)] |},
         (numbered 0 vs).
  rewrite numbered_length, numbered_ids, numbered_handles.
  repeat split; auto. subst trigger.
  destruct (Nat.eqb_spec (length vs) 10) as [E|E].
  - destruct (exists_last (l := vs)) as (init & v & ->).
    { intros ->. simpl in E. discriminate. }
    rewrite length_app in E. simpl in E.
    unfold arrivals. rewrite map_app, app_nil_r. fold (arrivals init).
    rewrite delete_for_arrivals by (rewrite Hempty; simpl; lia).
    rewrite Hempty. cbn [delete_for map delete_select app length].
    rewrite flush_if_full_at
      by (rewrite append_entry_length; simpl; rewrite numbered_length; lia).
    rewrite deleteMessages_first_try.
    + simpl. rewrite numbered_app, !length_app, !numbered_length. simpl.
      reflexivity.
    + simpl. now destruct (numbered 0 init).
    + exact Hok.
  - rewrite delete_for_arrivals by (rewrite Hempty; simpl; lia).
    rewrite Hempty. cbn [delete_for delete_select app length].
    rewrite deleteMessages_first_try.
    + simpl. now rewrite numbered_length.
    + simpl. destruct vs; [simpl in Hlen; lia | discriminate].
    + exact Hok.
Qed.

(** X18.  While no retry pause of a flush is cut short by
    cancellation: whatever arms the select takes from the start of
    [deleteLoop], the batch holds fewer than ten entries when the [for]
    comes round again, and at most ten right after an arrival; and when
    an arrival brings it to exactly ten, [deleteMessages] runs in that
    same turn of the [for], without a tick: it calls the API with these
    ten entries (up to three times) and leaves the batch empty. *)
Theorem batch_never_exceeds_ten :
  never_cancelled ->
  forall (arms : list delete_arm) (v : Message),
    let w := fst (delete_for delete_start arms) in
    let w1 := append_entry w v in
    length (Entries w) < 10
    /\ length (Entries w1) <= 10
    /\ (length (Entries w1) = 10 ->
        exists (w2 : DeleteWorld) (n : nat),
          delete_for w [DCompleted (Some v)] = (w2, Running)
          /\ 1 <= n <= 3
          /\ delete_calls w2 = delete_calls w ++ repeat (Entries w1) n
          /\ Entries w2 = []).
Proof.
  intros Hnc arms v w w1.
  assert (Hw : length (Entries w) < 10).
  { apply delete_for_below_ten; [exact Hnc | simpl; lia]. }
  assert (Hl : length (Entries w1) = S (length (Entries w)))
    by apply append_entry_length.
  split; [exact Hw|]. split; [lia|].
  intros E.
  destruct (@deleteMessages_calls w1) as (n & Hn & Hc).
  { intros H0. rewrite H0 in E. discriminate. }
  exists (deleteMessages w1), n.
  split; [|split; [exact Hn | split; [exact Hc|]]].
  - cbn [delete_for delete_select]. fold w1.
    now rewrite flush_if_full_at by exact E.
  - now apply deleteMessages_clears.
Qed.

(** C6.  When the delete call fails three times in a row and no pause
    is cut short by cancellation, the flush makes exactly these three
    calls, logs the three failures and empties the batch.  The [for] of
    [deleteLoop] goes on (it does not return), and the next completed
    message opens a new batch with the id 0. *)
Theorem three_failed_deletes_drop_the_batch :
  forall (w : DeleteWorld) (e1 e2 e3 : error),
    Entries w <> [] ->
    let k := length (delete_calls w) in
    api k = {| attempt_err := Some e1; attempt_cancelled := false |} ->
    api (k + 1) = {| attempt_err := Some e2; attempt_cancelled := false |} ->
    api (k + 2) = {| attempt_err := Some e3; attempt_cancelled := false |} ->
    let w' := deleteMessages w in
    w' = {| Entries := [];
            delete_calls := delete_calls w ++ [Entries w; Entries w; Entries w];
            delete_log := delete_log w ++
              [LogDeleteFailed e1; LogDeleteFailed e2; LogDeleteFailed e3] |}
    /\ (forall rest, delete_for w (DTick :: rest) = delete_for w' rest)
    /\ (length (Entries w) = 10 -> flush_if_full w = w')
    /\ (forall v,
         delete_for w' [DCompleted (Some v)]
         = ({| Entries :=
                 [{| Id := "0"; EntryReceiptHandle := ReceiptHandle v |}];
               delete_calls := delete_calls w';
               delete_log := delete_log w' |}, Running)).
Proof.
  intros w e1 e2 e3 Hne k H1 H2 H3 w'.
  assert (Hw' : w' = {| Entries := [];
            delete_calls := delete_calls w ++ [Entries w; Entries w; Entries w];
            delete_log := delete_log w ++
              [LogDeleteFailed e1; LogDeleteFailed e2; LogDeleteFailed e3] |}).
  { subst w'. unfold deleteMessages.
    destruct (Entries w) as [|e es] eqn:He; [contradiction|].
    rewrite delete_attempts_retry with (err := e1)
      by (fold k; now rewrite H1).
    rewrite delete_attempts_retry with (err := e2)
      by (simpl; rewrite length_app; simpl; fold k; now rewrite H2).
    rewrite delete_attempts_retry with (err := e3)
      by (simpl; rewrite !length_app; simpl; fold k;
          rewrite <- Nat.add_assoc; simpl; now rewrite H3).
    unfold reset_entries. simpl. rewrite He, <- !app_assoc. reflexivity. }
  split; [exact Hw'|]. split; [|split].
  - intros rest. cbn [delete_for delete_select]. fold w'.
    rewrite flush_if_full_below; [reflexivity|].
    rewrite Hw'. simpl. lia.
  - intros E. now apply flush_if_full_at.
  - intros v. rewrite Hw'. reflexivity.
Qed.

End DeleteStage.

(** Queue APIs to run the acknowledge stage on. *)

Definition answers_ok : DeleteAttempt :=
  {| attempt_err := None; attempt_cancelled := false |}.

Definition answers_unavailable : DeleteAttempt :=
  {| attempt_err := Some (External "unavailable");
     attempt_cancelled := false |}.

(** Every delete call succeeds. *)
Definition always_ok : nat -> DeleteAttempt := fun _ => answers_ok.

(** The first delete call of the run fails, the later ones succeed. *)
Definition fails_once : nat -> DeleteAttempt :=
  fun k => match k with O => answers_unavailable | S _ => answers_ok end.

(** Every delete call fails; no pause is cut short. *)
Definition always_fails : nat -> DeleteAttempt :=
  fun _ => answers_unavailable.

(** Every delete call fails and cancellation fires in the pause. *)
Definition cancelled_in_pause : nat -> DeleteAttempt :=
  fun _ => {| attempt_err := Some (External "unavailable");
              attempt_cancelled := true |}.

Definition first_message : Message :=
  {| Body := Some "e2JsYWh9"; ReceiptHandle := Some "rh-a" |}.

Definition second_message : Message :=
  {| Body := Some "e2JsYWh9"; ReceiptHandle := Some "rh-b" |}.

Example ten_arrivals_flush_at_once :
  delete_for always_ok delete_start (arrivals (repeat first_message 10))
  = ({| Entries := [];
        delete_calls := [numbered 0 (repeat first_message 10)];
        delete_log := [LogDeleted 10] |}, Running).
Proof. reflexivity. Qed.

(** C3, the claim as stated fails twice.  With no message in the
    interval the flush issues no call at all; and when the first delete
    call fails, the flush of a batch of one issues two calls. *)
Lemma flush_does_not_always_issue_one_call :
  delete_calls (fst (delete_for always_ok delete_start [DTick])) = []
  /\ delete_calls
       (fst (delete_for fails_once delete_start
               [DCompleted (Some first_message); DTick]))
     = [ [{| Id := "0"; EntryReceiptHandle := Some "rh-a" |}];
         [{| Id := "0"; EntryReceiptHandle := Some "rh-a" |}] ].
Proof. split; reflexivity. Qed.

Lemma one_flush_witness :
  Entries delete_start = []
  /\ 1 <= length [first_message; second_message] <= 10
  /\ exists (w' : DeleteWorld) (batch : list Entry),
       delete_for always_ok delete_start
         (arrivals [first_message; second_message] ++ [DTick])
       = (w', Running)
       /\ delete_calls w' = [batch]
       /\ length batch = 2
       /\ map Id batch = ["0"; "1"]
       /\ map EntryReceiptHandle batch = [Some "rh-a"; Some "rh-b"]
       /\ Entries w' = [].
Proof.
  assert (Hlen : 1 <= length [first_message; second_message] <= 10)
    by (simpl; lia).
  split; [reflexivity|]. split; [exact Hlen|].
  apply (one_flush_sends_the_batch_numbered_by_position
           always_ok delete_start [first_message; second_message]
           eq_refl Hlen eq_refl).
Defined.

(** C4, the code at the failing input: a batch of one, a delete call
    that fails, cancellation during the pause.  [deleteMessages] returns
    from the select and the batch still holds its entry.  The [for] may
    then take further arrivals before it takes [<-ctx.Done()]: after ten
    arrivals, the failed flush and an eleventh arrival the batch holds
    eleven entries, which the deferred flush sends in one call. *)
Theorem cancelled_flush_keeps_the_batch :
  deleteMessages cancelled_in_pause (append_entry delete_start first_message)
  = {| Entries := [{| Id := "0"; EntryReceiptHandle := Some "rh-a" |}];
       delete_calls := [[{| Id := "0"; EntryReceiptHandle := Some "rh-a" |}]];
       delete_log := [LogDeleteFailed (External "unavailable")] |}
  /\ length
       (Entries
          (fst (delete_for cancelled_in_pause delete_start
                  (arrivals (repeat first_message 11))))) = 11
  /\ map (length (A := Entry))
       (delete_calls
          (fst (deleteLoop cancelled_in_pause delete_start
                  (arrivals (repeat first_message 11) ++ [DDone]))))
     = [10; 11].
Proof. repeat split. Qed.

Lemma never_exceeds_ten_witness :
  never_cancelled always_fails
  /\ length
       (Entries
          (fst (delete_for always_fails delete_start
                  (arrivals (repeat first_message 29))))) = 9
  /\ exists (w2 : DeleteWorld) (n : nat),
       delete_for always_fails
         (fst (delete_for always_fails delete_start
                 (arrivals (repeat first_message 29))))
         [DCompleted (Some second_message)]
       = (w2, Running)
       /\ 1 <= n <= 3
       /\ delete_calls w2
          = delete_calls
              (fst (delete_for always_fails delete_start
                      (arrivals (repeat first_message 29))))
            ++ repeat
                 (Entries
                    (append_entry
                       (fst (delete_for always_fails delete_start
                               (arrivals (repeat first_message 29))))
                       second_message)) n
       /\ Entries w2 = [].
Proof.
  assert (H : never_cancelled always_fails) by (intros k; reflexivity).
  split; [exact H|]. split; [reflexivity|].
  destruct (batch_never_exceeds_ten H
              (arrivals (repeat first_message 29)) second_message)
    as (_ & _ & Hflush).
  apply Hflush. reflexivity.
Defined.

Lemma three_failed_deletes_witness :
  Entries (append_entry delete_start first_message) <> []
  /\ deleteMessages always_fails (append_entry delete_start first_message)
     = {| Entries := [];
          delete_calls :=
            [ [{| Id := "0"; EntryReceiptHandle := Some "rh-a" |}];
              [{| Id := "0"; EntryReceiptHandle := Some "rh-a" |}];
              [{| Id := "0"; EntryReceiptHandle := Some "rh-a" |}] ];
          delete_log :=
            [ LogDeleteFailed (External "unavailable");
              LogDeleteFailed (External "unavailable");
              LogDeleteFailed (External "unavailable") ] |}.
Proof.
  assert (Hne : Entries (append_entry delete_start first_message) <> [])
    by discriminate.
  split; [exact Hne|].
  destruct (three_failed_deletes_drop_the_batch always_fails
              (append_entry delete_start first_message)
              (e1 := External "unavailable") (e2 := External "unavailable")
              (e3 := External "unavailable")
              Hne eq_refl eq_refl eq_refl) as (H & _).
  exact H.
Defined.

(** *** The receive stage: properties *)

Definition receive_start : ReceiveWorld :=
  {| received := []; receive_calls := 0; receive_log := [] |}.

Lemma send_messages_all (ms : list (option Message)) :
  forall w, snd (send_messages w ms (length ms)) = true.
Proof. induction ms as [|m ms IH]; intros w; simpl; auto. Qed.

Lemma receiveLoop_running_or_cancelled (rounds : list ReceiveRound) :
  forall w,
    snd (receiveLoop w rounds) = Running
    \/ snd (receiveLoop w rounds) = Returned (Some Canceled).
Proof.
  induction rounds as [|r rounds IH]; intros w; simpl.
  - now left.
  - destruct (round_result r) as [ms|err].
    + destruct (send_messages _ ms (round_sent r)) as [w2 [|]].
      * destruct (round_done_after r); [now right | apply IH].
      * now right.
    + destruct (round_backoff_cancelled r); [now right | apply IH].
Qed.

Lemma receiveLoop_returned (rounds : list ReceiveRound) :
  forall w w' r,
    receiveLoop w rounds = (w', Returned r) -> r = Some Canceled.
Proof.
  intros w w' r H.
  destruct (receiveLoop_running_or_cancelled rounds w) as [E|E];
    rewrite H in E; simpl in E; congruence.
Qed.

(** C8.  [receiveLoop] never returns nil: after any number of turns it
    is still running or has returned the cancellation error.  A receive
    error does not end it: when the backoff wait elapses the loop goes
    round again and issues the next receive call.  And it returns the
    cancellation error when cancellation fires during the backoff wait,
    while a message waits to be sent on the received channel, or by the
    check that closes a turn. *)
Theorem receiveLoop_only_exits_on_cancellation :
  (forall w rounds,
      snd (receiveLoop w rounds) = Running
      \/ snd (receiveLoop w rounds) = Returned (Some Canceled))
  /\ (forall w err sent after rest,
      receiveLoop w
        ({| round_result := Failed err;
            round_backoff_cancelled := false;
            round_sent := sent;
            round_done_after := after |} :: rest)
      = receiveLoop (receive_called w) rest)
  /\ (forall w err sent after rest,
      receiveLoop w
        ({| round_result := Failed err;
            round_backoff_cancelled := true;
            round_sent := sent;
            round_done_after := after |} :: rest)
      = (receive_called w, Returned (Some Canceled)))
  /\ (forall w m ms cancelled after rest,
      snd (receiveLoop w
             ({| round_result := Ok (m :: ms);
                 round_backoff_cancelled := cancelled;
                 round_sent := 0;
                 round_done_after := after |} :: rest))
      = Returned (Some Canceled))
  /\ (forall w ms cancelled rest,
      snd (receiveLoop w
             ({| round_result := Ok ms;
                 round_backoff_cancelled := cancelled;
                 round_sent := length ms;
                 round_done_after := true |} :: rest))
      = Returned (Some Canceled)).
Proof.
  split; [|split; [|split; [|split]]].
  - intros w rounds. apply receiveLoop_running_or_cancelled.
  - reflexivity.
  - reflexivity.
  - reflexivity.
  - intros w ms cancelled rest. cbn [receiveLoop round_result round_sent
      round_done_after].
    pose proof (send_messages_all ms
                  (receive_printf (receive_called w) ms)) as H.
    destruct (send_messages _ ms (length ms)) as [w2 sent].
    simpl in H. now rewrite H.
Qed.

Example receive_retries_after_an_error :
  receiveLoop receive_start
    [ {| round_result := Failed (External "timeout");
         round_backoff_cancelled := false;
         round_sent := 0;
         round_done_after := false |};
      {| round_result := Ok [Some first_message; Some second_message];
         round_backoff_cancelled := false;
         round_sent := 2;
         round_done_after := false |} ]
  = ({| received := [Some first_message; Some second_message];
        receive_calls := 2;
        receive_log := [LogReceived 2] |}, Running).
Proof. reflexivity. Qed.

(** *** The subscription: properties *)

Lemma first_error_all (exits : list (option error)) (e : error) :
  exits <> [] ->
  (forall r, In r exits -> r = Some e) ->
  first_error exits = Some e.
Proof.
  destruct exits as [|r exits]; [contradiction|].
  intros _ Hall. simpl.
  now rewrite (Hall r (or_introl eq_refl)).
Qed.

Section Supervisor.

Variable Event : Type.
Variable UnmarshalEvent : bytes -> result Event.
Variable HState : Type.
Variable fn : HState -> Event -> HState * option error.
Variable api : nat -> DeleteAttempt.

Lemma delete_for_returned (arms : list delete_arm) :
  forall w w' r,
    delete_for api w arms = (w', Returned r) -> r = Some Canceled.
Proof.
  induction arms as [|a arms IH]; intros w w' r H; simpl in H.
  - discriminate.
  - destruct a as [| |[v|]]; simpl in H; try (now inversion H);
      now apply IH in H.
Qed.

Lemma deleteLoop_returned (arms : list delete_arm) :
  forall w w' r,
    deleteLoop api w arms = (w', Returned r) -> r = Some Canceled.
Proof.
  intros w w' r H. unfold deleteLoop in H.
  destruct (delete_for api w arms) as [w1 [|r1|]] eqn:Hf;
    inversion H; subst.
  now apply delete_for_returned in Hf.
Qed.

(** C2, as amended.  [Close] cancels and returns what [Wait] returns,
    the first non-nil error a stage returned.  A stage that exits on
    cancellation returns [ctx.Err()], which is not nil; so when the three
    stages exit because of the cancellation, in whatever order, [Close]
    returns the cancellation error [context.Canceled]. *)
Theorem Close_returns_the_cancellation_error :
  forall rw rounds rw' r1
         (hw : HandleWorld Event HState) harms hw' r2
         dw darms dw' r3 exits,
    receiveLoop rw rounds = (rw', Returned r1) ->
    handleLoop UnmarshalEvent fn hw harms = (hw', Returned r2) ->
    r2 = ctx_Err Cancelled ->
    deleteLoop api dw darms = (dw', Returned r3) ->
    Permutation [r1; r2; r3] exits ->
    Close WithContext exits = Some Canceled.
Proof.
  intros rw rounds rw' r1 hw harms hw' r2 dw darms dw' r3 exits
         Hr Hh Hc Hd Hp.
  apply receiveLoop_returned in Hr.
  apply deleteLoop_returned in Hd.
  subst r1 r2 r3. simpl in Hp.
  unfold Close. rewrite Wait_first_error. simpl.
  apply first_error_all.
  - intros ->. apply Permutation_sym, Permutation_nil in Hp. discriminate.
  - intros r Hin. apply Permutation_sym in Hp.
    apply (Permutation_in _ Hp) in Hin. simpl in Hin.
    intuition congruence.
Qed.

End Supervisor.

(** C2, the claim as stated fails: each stage takes the [<-ctx.Done()]
    arm of its first select and returns the cancellation error, and
    [Close] returns that error, not nil. *)
Lemma close_after_cancellation_is_not_nil :
  snd (receiveLoop receive_start
         [ {| round_result := Failed Canceled;
              round_backoff_cancelled := true;
              round_sent := 0;
              round_done_after := true |} ])
  = Returned (Some Canceled)
  /\ snd (handleLoop Sample.UnmarshalEvent Sample.fn handle_start [HDone])
     = Returned (Some Canceled)
  /\ snd (deleteLoop always_ok delete_start [DDone])
     = Returned (Some Canceled)
  /\ Close WithContext [Some Canceled; Some Canceled; Some Canceled]
     = Some Canceled.
Proof. repeat split. Qed.

Lemma close_witness :
  receiveLoop receive_start
    [ {| round_result := Failed Canceled;
         round_backoff_cancelled := true;
         round_sent := 0;
         round_done_after := true |} ]
  = (receive_called receive_start, Returned (Some Canceled))
  /\ handleLoop Sample.UnmarshalEvent Sample.fn handle_start [HDone]
     = (handle_start, Returned (Some Canceled))
  /\ deleteLoop always_ok delete_start [DDone]
     = (delete_start, Returned (Some Canceled))
  /\ Close WithContext [Some Canceled; Some Canceled; Some Canceled]
     = Some Canceled.
Proof.
  split; [reflexivity|]. split; [reflexivity|]. split; [reflexivity|].
  exact (Close_returns_the_cancellation_error
           Sample.UnmarshalEvent Sample.fn always_ok
           receive_start
           [ {| round_result := Failed Canceled;
                round_backoff_cancelled := true;
                round_sent := 0;
                round_done_after := true |} ]
           handle_start [HDone]
           delete_start [DDone]
           eq_refl eq_refl eq_refl eq_refl (Permutation_refl _)).
Defined.

(** *** [Subscribe]: looking the queue up *)

(** [strings.HasSuffix]:
    [len(s) >= len(suffix) && s[len(s)-len(suffix):] == suffix] *)
Definition HasSuffix (s suffix : string) : bool :=
  (String.length suffix <=? String.length s)%nat
  && String.eqb
       (substring (String.length s - String.length suffix)
          (String.length suffix) s)
       suffix.

(** The two calls of [printf] in [Subscribe]. *)
Inductive SubscribeLog : Type :=
| LogSubscribing (queueName : string)
    (* "subscribing to sqs event queue, %v" *)
| LogFound (queueUrl : string).
    (* "found %v" *)

(** The two errors [Subscribe] makes. *)
Inductive subscribe_error : Type :=
| ListQueuesFailed (cause : error)       (* "sqs.ListQueues failed - %v" *)
| QueueNotFound (queueName : string).    (* "queue not found, %v" *)

(** [for _, item := range listOut.QueueUrls { if ... { queueUrl = item } }],
    from the value [queueUrl] holds so far. *)
Definition range_urls (queueName : string) (urls : list string)
  (queueUrl : option string) : option string :=
  fold_left
    (fun found item =>
       if HasSuffix item ("/" ++ queueName)%string then Some item else found)
    urls queueUrl.

(** [Subscribe], up to the start of the three stages: the lines logged,
    and the error or the URL the stages are started on.  [ListQueues] is
    the API call at a [QueueNamePrefix], giving [listOut.QueueUrls]. *)
Definition Subscribe (ListQueues : string -> result (list string))
  (queueName : string) : list SubscribeLog * (subscribe_error + string) :=
  match ListQueues queueName with
  | Failed err => ([LogSubscribing queueName], inl (ListQueuesFailed err))
  | Ok urls =>
    match range_urls queueName urls None with
    | None => ([LogSubscribing queueName], inl (QueueNotFound queueName))
    | Some queueUrl =>
      ([LogSubscribing queueName; LogFound queueUrl], inr queueUrl)
    end
  end.

(** [Mock.ListQueues] of the package's test. *)
Definition Mock_ListQueues (prefix : string) : result (list string) :=
  Ok [("/" ++ prefix)%string].

Lemma substring_whole (s : string) : substring 0 (String.length s) s = s.
Proof. induction s as [|c s IH]; simpl; [|rewrite IH]; reflexivity. Qed.

Lemma substring_after (p s : string) (m : nat) :
  substring (String.length p) m (p ++ s)%string = substring 0 m s.
Proof. induction p as [|c p IH]; simpl; [reflexivity | exact IH]. Qed.

Lemma string_length_append (p s : string) :
  String.length (p ++ s)%string = String.length p + String.length s.
Proof. induction p as [|c p IH]; simpl; [|rewrite IH]; reflexivity. Qed.

Lemma substring_split (s : string) :
  forall n,
    n <= String.length s ->
    s = (substring 0 n s ++ substring n (String.length s - n) s)%string.
Proof.
  induction s as [|c s IH]; intros n Hn; simpl in *.
  - destruct n; reflexivity.
  - destruct n as [|n]; simpl.
    + now rewrite substring_whole.
    + f_equal. apply IH. lia.
Qed.

(** [HasSuffix s suffix] holds exactly when [s] ends with [suffix]. *)
Lemma HasSuffix_spec (s suffix : string) :
  HasSuffix s suffix = true <-> exists p, s = (p ++ suffix)%string.
Proof.
  unfold HasSuffix. rewrite andb_true_iff, Nat.leb_le, String.eqb_eq. split.
  - intros [Hle Hsub].
    exists (substring 0 (String.length s - String.length suffix) s).
    rewrite (substring_split s (n := String.length s - String.length suffix))
      at 1 by lia.
    f_equal. rewrite <- Hsub at 3. f_equal. lia.
  - intros [p ->]. rewrite string_length_append. split; [lia|].
    replace (String.length p + String.length suffix - String.length suffix)
      with (String.length p) by lia.
    rewrite substring_after. apply substring_whole.
Qed.

Lemma range_urls_found (queueName : string) (urls : list string) :
  forall found url,
    range_urls queueName urls found = Some url <->
    (exists before after,
        urls = before ++ url :: after
        /\ HasSuffix url ("/" ++ queueName)%string = true
        /\ forall u, In u after ->
             HasSuffix u ("/" ++ queueName)%string = false)
    \/ (found = Some url
        /\ forall u, In u urls ->
             HasSuffix u ("/" ++ queueName)%string = false).
Proof.
  unfold range_urls. remember ("/" ++ queueName)%string as suffix.
  clear Heqsuffix.
  induction urls as [|item urls IH]; intros found url; cbn [fold_left In].
  - split.
    + intros ->. right. split; [reflexivity | tauto].
    + intros [(before & after & H & _) | [H _]]; [|exact H].
      now destruct before.
  - rewrite IH. clear IH.
    destruct (HasSuffix item suffix) eqn:Hs; split.
    + intros [(before & after & -> & Hu & Ha) | [H Ha]].
      * left. exists (item :: before), after. auto.
      * injection H as <-. left. exists [], urls. auto.
    + intros [(before & after & H & Hu & Ha) | [_ Ha]].
      * destruct before as [|b before]; simpl in H; injection H as <- ->.
        -- right. auto.
        -- left. exists before, after. auto.
      * specialize (Ha item (or_introl eq_refl)). congruence.
    + intros [(before & after & -> & Hu & Ha) | [H Ha]].
      * left. exists (item :: before), after. auto.
      * right. split; [exact H|]. intros u [<-|Hin]; auto.
    + intros [(before & after & H & Hu & Ha) | [Hf Ha]].
      * destruct before as [|b before]; simpl in H; injection H as <- ->.
        -- congruence.
        -- left. exists before, after. auto.
      * right. split; [exact Hf|]. intros u Hin. apply Ha. now right.
Qed.

Lemma HasSuffix_false (s suffix : string) :
  HasSuffix s suffix = false <-> ~ exists p, s = (p ++ suffix)%string.
Proof.
  rewrite <- HasSuffix_spec. destruct (HasSuffix s suffix); split;
    congruence.
Qed.

(** X1.  When the listing succeeds, [Subscribe] starts the stages on a
    URL exactly when that URL is in the listing, ends with a slash and
    the queue name, and no URL after it in the listing does: of several
    queues with the name, the last listed wins. *)
Theorem Subscribe_picks_the_last_url_with_the_name :
  forall (ListQueues : string -> result (list string))
         (queueName : string) (urls : list string),
    ListQueues queueName = Ok urls ->
    forall url,
      snd (Subscribe ListQueues queueName) = inr url <->
      exists before after,
        urls = before ++ url :: after
        /\ (exists p, url = (p ++ "/" ++ queueName)%string)
        /\ forall u, In u after ->
             ~ exists p, u = (p ++ "/" ++ queueName)%string.
Proof.
  intros ListQueues queueName urls Hl url. unfold Subscribe. rewrite Hl.
  pose proof (range_urls_found queueName urls None url) as Hr.
  destruct (range_urls queueName urls None) as [found|]; simpl.
  - split.
    + intros H. injection H as ->.
      destruct (proj1 Hr eq_refl) as [(before & after & Hu & Hs & Ha) | [H _]];
        [|discriminate].
      exists before, after. split; [exact Hu|]. split.
      * now apply HasSuffix_spec.
      * intros u Hin. now apply HasSuffix_false, Ha.
    + intros (before & after & Hu & Hs & Ha).
      f_equal. enough (Some found = Some url) by congruence.
      apply Hr. left. exists before, after. split; [exact Hu|]. split.
      * now apply HasSuffix_spec.
      * intros u Hin. now apply HasSuffix_false, Ha.
  - split; [discriminate|].
    intros (before & after & Hu & Hs & Ha). exfalso.
    enough (@None string = Some url) by discriminate.
    apply Hr. left. exists before, after. split; [exact Hu|]. split.
    + now apply HasSuffix_spec.
    + intros u Hin. now apply HasSuffix_false, Ha.
Qed.

(** X2.  [Subscribe] fails in two ways only: with the listing's error
    when [ListQueues] fails, and, when the listing succeeds, with "queue
    not found" exactly when no listed URL ends with a slash and the
    queue name.  In both cases no stage is started and only the first
    line is logged. *)
Theorem Subscribe_fails_without_a_matching_url :
  forall (ListQueues : string -> result (list string)) (queueName : string),
    (forall err,
        ListQueues queueName = Failed err ->
        Subscribe ListQueues queueName
        = ([LogSubscribing queueName], inl (ListQueuesFailed err)))
    /\ (forall urls,
        ListQueues queueName = Ok urls ->
        (Subscribe ListQueues queueName
         = ([LogSubscribing queueName], inl (QueueNotFound queueName))
         <-> forall u, In u urls ->
               ~ exists p, u = (p ++ "/" ++ queueName)%string)
        /\ forall e,
             snd (Subscribe ListQueues queueName) = inl e ->
             e = QueueNotFound queueName).
Proof.
  intros ListQueues queueName. split.
  - intros err Hl. unfold Subscribe. now rewrite Hl.
  - intros urls Hl. unfold Subscribe. rewrite Hl.
    destruct (range_urls queueName urls None) as [found|] eqn:Hr.
    + split; [split; [discriminate|] | discriminate].
      intros Hnone. exfalso.
      apply range_urls_found in Hr.
      destruct Hr as [(before & after & -> & Hs & _) | [H _]];
        [|discriminate].
      apply HasSuffix_spec in Hs.
      apply (Hnone found); [|exact Hs].
      apply in_or_app. right. now left.
    + split; [split; [|reflexivity] | now intros e [= <-]].
      intros _ u Hin. apply HasSuffix_false.
      destruct (HasSuffix u ("/" ++ queueName)%string) eqn:Hs;
        [|reflexivity].
      exfalso. apply in_split in Hin. destruct Hin as (l1 & l2 & ->).
      assert (Hex : exists url, range_urls queueName (l1 ++ u :: l2) None
                                = Some url).
      { unfold range_urls. rewrite fold_left_app. cbn [fold_left].
        rewrite Hs. clear. generalize u.
        induction l2 as [|x l2 IH]; intros v; cbn [fold_left]; eauto.
        destruct (HasSuffix x ("/" ++ queueName)%string); apply IH. }
      destruct Hex as [url Hex]. congruence.
Qed.

(** X3.  Against the [ListQueues] of the package's test mock, which
    lists the one URL made of a slash and the prefix asked for,
    [Subscribe] finds the queue whatever its name. *)
Theorem Subscribe_finds_the_mock_queue :
  forall queueName : string,
    Subscribe Mock_ListQueues queueName
    = ([LogSubscribing queueName; LogFound ("/" ++ queueName)%string],
       inr ("/" ++ queueName)%string).
Proof.
  intros queueName. unfold Subscribe, Mock_ListQueues, range_urls.
  cbn [fold_left].
  assert (H : HasSuffix ("/" ++ queueName)%string ("/" ++ queueName)%string
              = true).
  { apply HasSuffix_spec. now exists ""%string. }
  now rewrite H.
Qed.

(** A listing as the queue service gives it for the prefix [orders]. *)
Definition orders_listing (prefix : string) : result (list string) :=
  Ok [ "https://sqs.example/1/orders-dlq";
       "https://sqs.example/1/orders";
       "https://sqs.example/2/orders";
       "https://sqs.example/2/orders-old" ].

Lemma subscribe_witness :
  orders_listing "orders"
  = Ok [ "https://sqs.example/1/orders-dlq";
         "https://sqs.example/1/orders";
         "https://sqs.example/2/orders";
         "https://sqs.example/2/orders-old" ]
  /\ exists before after,
       [ "https://sqs.example/1/orders-dlq";
         "https://sqs.example/1/orders";
         "https://sqs.example/2/orders";
         "https://sqs.example/2/orders-old" ]
       = before ++ "https://sqs.example/2/orders" :: after
       /\ (exists p,
            "https://sqs.example/2/orders" = (p ++ "/" ++ "orders")%string)
       /\ forall u, In u after ->
            ~ exists p, u = (p ++ "/" ++ "orders")%string.
Proof.
  split; [reflexivity|].
  apply (Subscribe_picks_the_last_url_with_the_name
           orders_listing "orders" eq_refl).
  reflexivity.
Defined.

Lemma subscribe_failure_witness :
  orders_listing "invoices"
  = Ok [ "https://sqs.example/1/orders-dlq";
         "https://sqs.example/1/orders";
         "https://sqs.example/2/orders";
         "https://sqs.example/2/orders-old" ]
  /\ forall u,
       In u [ "https://sqs.example/1/orders-dlq";
              "https://sqs.example/1/orders";
              "https://sqs.example/2/orders";
              "https://sqs.example/2/orders-old" ] ->
       ~ exists p, u = (p ++ "/" ++ "invoices")%string.
Proof.
  split; [reflexivity|].
  destruct (Subscribe_fails_without_a_matching_url orders_listing "invoices")
    as (_ & H).
  destruct (H _ eq_refl) as (Hiff & _).
  apply Hiff. reflexivity.
Defined.

(** *** The receive stage: what reaches the received channel *)

(** The messages the queue API returned over the rounds, in order. *)
Definition offered (rounds : list ReceiveRound) : list (option Message) :=
  flat_map
    (fun r => match round_result r with Ok ms => ms | Failed _ => [] end)
    rounds.

Lemma send_messages_prefix (ms : list (option Message)) :
  forall w proceed,
    exists sent later,
      ms = sent ++ later
      /\ received (fst (send_messages w ms proceed)) = received w ++ sent
      /\ receive_calls (fst (send_messages w ms proceed)) = receive_calls w
      /\ (snd (send_messages w ms proceed) = true -> later = []).
Proof.
  induction ms as [|m ms IH]; intros w proceed; simpl.
  - exists [], []. simpl. rewrite app_nil_r. auto.
  - destruct proceed as [|k].
    + exists [], (m :: ms). simpl. rewrite app_nil_r.
      repeat split; auto. discriminate.
    + destruct (IH (receive_send w m) k)
        as (sent & later & Hms & Hrec & Hc & Hall).
      exists (m :: sent), later. simpl. rewrite <- Hms.
      repeat split; auto.
      rewrite Hrec. simpl. now rewrite <- app_assoc.
Qed.

Lemma receive_printf_received (w : ReceiveWorld) (ms : list (option Message)) :
  received (receive_printf w ms) = received w
  /\ receive_calls (receive_printf w ms) = receive_calls w.
Proof. unfold receive_printf. now destruct (length ms). Qed.

Lemma receiveLoop_sends_a_prefix :
  forall (rounds : list ReceiveRound) (w : ReceiveWorld),
    let w' := fst (receiveLoop w rounds) in
    exists sent unsent,
      offered rounds = sent ++ unsent
      /\ received w' = received w ++ sent
      /\ receive_calls w' <= receive_calls w + length rounds
      /\ (snd (receiveLoop w rounds) = Running ->
          unsent = []
          /\ receive_calls w' = receive_calls w + length rounds).
Proof.
  induction rounds as [|r rounds IH]; intros w; simpl.
  - exists [], []. simpl. rewrite app_nil_r. repeat split; lia.
  - unfold offered. simpl. fold (offered rounds).
    destruct (round_result r) as [ms|err].
    + destruct (send_messages_prefix ms
                  (receive_printf (receive_called w) ms) (round_sent r))
        as (sent0 & later & Hms & Hrec & Hc & Hall).
      destruct (receive_printf_received (receive_called w) ms) as [Hp Hpc].
      rewrite Hp in Hrec. rewrite Hpc in Hc. simpl in Hrec, Hc.
      destruct (send_messages (receive_printf (receive_called w) ms) ms
                  (round_sent r)) as [w2 all] eqn:Hsend.
      simpl in Hrec, Hc, Hall.
      destruct all.
      * rewrite (Hall eq_refl), app_nil_r in Hms. subst sent0.
        destruct (round_done_after r).
        -- simpl. exists ms, (offered rounds).
           repeat split; auto; try lia; discriminate.
        -- destruct (IH w2) as (sent & unsent & Ho & Hr & Hle & Hrun).
           exists (ms ++ sent), unsent. rewrite Ho, Hr, Hrec.
           rewrite !app_assoc. repeat split; auto; try lia.
           ++ now apply Hrun.
           ++ apply Hrun in H. lia.
      * simpl. exists sent0, (later ++ offered rounds).
        rewrite app_assoc, <- Hms.
        repeat split; auto; try lia; discriminate.
    + destruct (round_backoff_cancelled r).
      * simpl. exists [], (offered rounds). simpl. rewrite app_nil_r.
        repeat split; auto; try lia; discriminate.
      * destruct (IH (receive_called w)) as (sent & unsent & Ho & Hr & Hle & Hrun).
        simpl in Hr, Hle, Hrun.
        exists sent, unsent. repeat split; auto; try lia.
        -- now apply Hrun.
        -- apply Hrun in H. lia.
Qed.

(** X4.  [receiveLoop] sends on the received channel the messages the
    API returned, in the order it returned them, each once: after any
    rounds the channel has been sent a prefix of them, and all of them
    when the loop is still running.  It issues at most one receive call
    per round, and exactly one while it runs. *)
Theorem receiveLoop_forwards_in_order :
  forall (rounds : list ReceiveRound) (w : ReceiveWorld),
    let w' := fst (receiveLoop w rounds) in
    exists sent unsent,
      offered rounds = sent ++ unsent
      /\ received w' = received w ++ sent
      /\ receive_calls w' <= receive_calls w + length rounds
      /\ (snd (receiveLoop w rounds) = Running ->
          unsent = []
          /\ receive_calls w' = receive_calls w + length rounds).
Proof. intros rounds w. apply receiveLoop_sends_a_prefix. Qed.

(** *** The handle stage: what is dispatched and what is forwarded *)

Section HandleFlow.

Variable Event : Type.
Variable UnmarshalEvent : bytes -> result Event.
Variable HState : Type.
Variable fn : HState -> Event -> HState * option error.

(** The event [handleMessage] passes to the handler for a message: none
    for a nil message, a nil body, a body that is not base64 or a
    payload the serializer refuses. *)
Definition message_event (v : option Message) : option Event :=
  match v with
  | None => None
  | Some m =>
    match Body m with
    | None => None
    | Some body =>
      match DecodeString body with
      | Failed _ => None
      | Ok data =>
        match UnmarshalEvent data with
        | Failed _ => None
        | Ok event => Some event
        end
      end
    end
  end.

Definition events_of (vs : list (option Message)) : list Event :=
  flat_map
    (fun v => match message_event v with Some ev => [ev] | None => [] end) vs.

(** The messages the arms take from the received channel, in order. *)
Definition taken (arms : list handle_arm) : list (option Message) :=
  flat_map
    (fun a => match a with HReceived v _ => [v] | HDone => [] end) arms.

Lemma handleMessage_effects (w : HandleWorld Event HState)
  (v : option Message) :
  dispatched (fst (handleMessage UnmarshalEvent fn w v))
  = dispatched w ++ events_of [v]
  /\ completed (fst (handleMessage UnmarshalEvent fn w v)) = completed w.
Proof.
  unfold handleMessage, events_of, message_event. simpl.
  destruct v as [m|]; simpl; [|now rewrite app_nil_r].
  destruct (Body m) as [body|]; simpl; [|now rewrite app_nil_r].
  destruct (DecodeString body) as [data|err]; simpl;
    [|now rewrite app_nil_r].
  destruct (UnmarshalEvent data) as [event|err]; simpl;
    [|now rewrite app_nil_r].
  now destruct (fn (handler_state w) event).
Qed.

Lemma events_of_cons (v : option Message) (vs : list (option Message)) :
  events_of [v] ++ events_of vs = events_of (v :: vs).
Proof. unfold events_of. simpl. now rewrite app_nil_r. Qed.

Lemma handleLoop_sends_a_prefix :
  forall (arms : list handle_arm) (w : HandleWorld Event HState),
    let w' := fst (handleLoop UnmarshalEvent fn w arms) in
    exists n m,
      completed w' = completed w ++ firstn n (taken arms)
      /\ n <= m <= S n
      /\ dispatched w' = dispatched w ++ events_of (firstn m (taken arms))
      /\ (snd (handleLoop UnmarshalEvent fn w arms) = Running ->
          completed w' = completed w ++ taken arms
          /\ dispatched w' = dispatched w ++ events_of (taken arms)).
Proof.
  induction arms as [|a arms IH]; intros w; cbn [handleLoop].
  - exists 0, 0. simpl. rewrite !app_nil_r. repeat split; auto.
  - destruct a as [|v sent].
    + exists 0, 0. simpl. rewrite !app_nil_r.
      repeat split; auto; discriminate.
    + destruct (handleMessage_effects w v) as [Hd Hc].
      change (taken (HReceived v sent :: arms)) with (v :: taken arms).
      destruct (handleMessage UnmarshalEvent fn w v) as [w1 [err|]];
        cbn [fst snd] in Hd, Hc.
      * exists 0, 1. cbn [fst snd firstn handle_printf dispatched completed].
        rewrite app_nil_r.
        repeat split; auto; try lia; discriminate.
      * destruct sent.
        -- destruct (IH (completed_send w1 v))
             as (n & m & Hn & Hm & Hev & Hrun).
           cbn [completed_send completed dispatched] in Hn, Hev, Hrun.
           exists (S n), (S m). cbn [firstn].
           split; [|split; [lia|split]].
           ++ rewrite Hn, Hc, <- app_assoc. reflexivity.
           ++ rewrite Hev, Hd, <- app_assoc. f_equal.
              apply events_of_cons.
           ++ intros Hr. destruct (Hrun Hr) as [H1 H2]. split.
              ** rewrite H1, Hc, <- app_assoc. reflexivity.
              ** rewrite H2, Hd, <- app_assoc. f_equal.
                 apply events_of_cons.
        -- exists 0, 1. cbn [fst snd firstn]. rewrite app_nil_r.
           repeat split; auto; try lia; discriminate.
Qed.

(** X5.  [handleLoop] forwards messages in the order it took them and
    skips none: the completed channel has been sent the first n
    messages taken, for some n.  Each message is handled once and in
    that order: the handler has been called on the events of the first
    n messages, or of the first n+1 (one message may have been handled
    and not yet, or never, forwarded).  While the loop runs, every
    message taken has been forwarded and nothing is in between. *)
Theorem handleLoop_forwards_in_order :
  forall (arms : list handle_arm) (w : HandleWorld Event HState),
    let w' := fst (handleLoop UnmarshalEvent fn w arms) in
    exists n m,
      completed w' = completed w ++ firstn n (taken arms)
      /\ n <= m <= S n
      /\ dispatched w' = dispatched w ++ events_of (firstn m (taken arms))
      /\ (snd (handleLoop UnmarshalEvent fn w arms) = Running ->
          completed w' = completed w ++ taken arms
          /\ dispatched w' = dispatched w ++ events_of (taken arms)).
Proof. intros arms w. apply handleLoop_sends_a_prefix. Qed.

End HandleFlow.

(** *** The acknowledge stage: what each delete call carries *)

Lemma Itoa_inj (n m : nat) : Itoa n = Itoa m -> n = m.
Proof.
  unfold Itoa. intros H.
  apply (f_equal NilEmpty.uint_of_string) in H.
  rewrite !NilEmpty.usu in H.
  injection H as H. now apply Unsigned.to_uint_inj.
Qed.

(** The ids of a batch are the positions of its entries. *)
Definition numbered_by_position (es : list Entry) : Prop :=
  map Id es = map Itoa (seq 0 (length es)).

(** The receipt handles submitted so far, over all calls, in order. *)
Definition submitted (w : DeleteWorld) : list (option string) :=
  flat_map (map EntryReceiptHandle) (delete_calls w).

(** The receipt handles of the batch not yet flushed. *)
Definition pending (w : DeleteWorld) : list (option string) :=
  map EntryReceiptHandle (Entries w).

(** An arm of normal running: a tick, or a message that is not nil. *)
Definition steady (a : delete_arm) : Prop :=
  match a with
  | DTick => True
  | DCompleted (Some _) => True
  | _ => False
  end.

(** The receipt handles of the messages the arms deliver, in order. *)
Definition delivered (arms : list delete_arm) : list (option string) :=
  flat_map
    (fun a => match a with
              | DCompleted (Some v) => [ReceiptHandle v]
              | _ => []
              end) arms.

Section DeleteFlow.

Variable api : nat -> DeleteAttempt.

(** Every delete call succeeds. *)
Definition never_fails : Prop := forall k, attempt_err (api k) = None.

Lemma Itoa_ids_NoDup (es : list Entry) :
  numbered_by_position es -> NoDup (map Id es).
Proof.
  unfold numbered_by_position. intros ->.
  apply Finite.Injective_map_NoDup.
  - intros n m. apply Itoa_inj.
  - apply seq_NoDup.
Qed.

Lemma append_entry_numbered (w : DeleteWorld) (v : Message) :
  numbered_by_position (Entries w) ->
  numbered_by_position (Entries (append_entry w v)).
Proof.
  unfold numbered_by_position. intros H. simpl.
  rewrite map_app, length_app, H. simpl.
  rewrite Nat.add_1_r, seq_S, map_app. reflexivity.
Qed.

Lemma deleteMessages_entries (w : DeleteWorld) :
  Entries (deleteMessages api w) = []
  \/ Entries (deleteMessages api w) = Entries w.
Proof.
  unfold deleteMessages.
  destruct (Entries w) as [|e es] eqn:He; [now left|].
  destruct (delete_attempts api 3 w) as [w1 finished] eqn:Ha.
  apply delete_attempts_calls in Ha. destruct Ha as [Ha _].
  destruct finished; [now left | right; congruence].
Qed.

Lemma deleteMessages_calls_any (w : DeleteWorld) :
  exists k,
    k <= 3
    /\ (Entries w <> [] -> 1 <= k)
    /\ (Entries w = [] -> k = 0)
    /\ delete_calls (deleteMessages api w)
       = delete_calls w ++ repeat (Entries w) k.
Proof.
  destruct (Entries w) as [|e es] eqn:He.
  - exists 0. unfold deleteMessages. rewrite He. simpl.
    rewrite app_nil_r. repeat split; auto; congruence.
  - destruct (@deleteMessages_calls api w) as (k & Hk & Hc);
      [congruence|].
    exists k. rewrite He in Hc. repeat split; auto; try lia; congruence.
Qed.

(** What holds of a world of the stage at any point of any run. *)
Definition well_formed (w : DeleteWorld) : Prop :=
  numbered_by_position (Entries w)
  /\ Forall (fun call => call <> [] /\ numbered_by_position call)
       (delete_calls w).

Lemma deleteMessages_well_formed (w : DeleteWorld) :
  well_formed w -> well_formed (deleteMessages api w).
Proof.
  intros [He Hc]. split.
  - destruct (deleteMessages_entries w) as [-> | ->];
      [reflexivity | exact He].
  - destruct (deleteMessages_calls_any w) as (k & _ & _ & Hk0 & ->).
    apply Forall_app. split; [exact Hc|].
    destruct (Entries w) as [|e es] eqn:Hes.
    + rewrite (Hk0 eq_refl). constructor.
    + apply Forall_forall. intros call Hin.
      apply repeat_spec in Hin. subst call. split; [discriminate | exact He].
Qed.

Lemma flush_if_full_well_formed (w : DeleteWorld) :
  well_formed w -> well_formed (flush_if_full api w).
Proof.
  intros H. unfold flush_if_full.
  destruct (length (Entries w) =? 10)%nat;
    [now apply deleteMessages_well_formed | exact H].
Qed.

Lemma delete_select_well_formed (w : DeleteWorld) (a : delete_arm) :
  well_formed w -> well_formed (fst (delete_select api w a)).
Proof.
  intros H. destruct a as [| |[v|]]; simpl; auto.
  - now apply deleteMessages_well_formed.
  - destruct H as [He Hc]. split; [|exact Hc].
    now apply append_entry_numbered.
Qed.

Lemma delete_for_well_formed (arms : list delete_arm) :
  forall w, well_formed w -> well_formed (fst (delete_for api w arms)).
Proof.
  induction arms as [|a arms IH]; intros w H; cbn [delete_for].
  - exact H.
  - pose proof (delete_select_well_formed a H) as Hs.
    destruct (delete_select api w a) as [w1 [|r|]]; simpl in *; auto.
    now apply IH, flush_if_full_well_formed.
Qed.

(** X7.  In every run of [deleteLoop], whatever the API answers and
    whenever cancellation fires, no delete call is made with an empty
    batch, and the ids of the entries of a call are their positions
    0, 1, 2, ... in it, so no two entries of a call share an id. *)
Theorem delete_calls_are_numbered_by_position :
  forall (arms : list delete_arm) (call : list Entry),
    In call (delete_calls (fst (deleteLoop api delete_start arms))) ->
    call <> []
    /\ map Id call = map Itoa (seq 0 (length call))
    /\ NoDup (map Id call).
Proof.
  intros arms call Hin.
  assert (Hwf : well_formed (fst (deleteLoop api delete_start arms))).
  { unfold deleteLoop.
    pose proof (@delete_for_well_formed arms delete_start) as H.
    destruct (delete_for api delete_start arms) as [w1 [|r|]]; simpl in *.
    - apply H. split; [reflexivity | constructor].
    - apply deleteMessages_well_formed, H. split; [reflexivity | constructor].
    - apply deleteMessages_well_formed, H. split; [reflexivity | constructor]. }
  destruct Hwf as [_ Hc]. rewrite Forall_forall in Hc.
  destruct (Hc call Hin) as [Hne Hnum].
  repeat split; auto. now apply Itoa_ids_NoDup.
Qed.

End DeleteFlow.

Lemma numbered_calls_witness :
  In [{| Id := "0"; EntryReceiptHandle := Some "rh-a" |};
      {| Id := "1"; EntryReceiptHandle := Some "rh-b" |}]
     (delete_calls
        (fst (deleteLoop fails_once delete_start
                [DCompleted (Some first_message);
                 DCompleted (Some second_message); DTick])))
  /\ NoDup ["0"%string; "1"%string].
Proof.
  assert (Hin : In [{| Id := "0"; EntryReceiptHandle := Some "rh-a" |};
                    {| Id := "1"; EntryReceiptHandle := Some "rh-b" |}]
                   (delete_calls
                      (fst (deleteLoop fails_once delete_start
                              [DCompleted (Some first_message);
                               DCompleted (Some second_message); DTick]))))
    by (left; reflexivity).
  split; [exact Hin|].
  destruct (delete_calls_are_numbered_by_position fails_once _ _ Hin)
    as (_ & _ & H).
  exact H.
Defined.

Section DeleteRetry.

Variable api : nat -> DeleteAttempt.

Lemma delete_attempts_answers (n : nat) :
  forall w w' finished,
    delete_attempts api n w = (w', finished) ->
    0 < n ->
    exists k,
      1 <= k <= n
      /\ delete_calls w' = delete_calls w ++ repeat (Entries w) k
      /\ Entries w' = Entries w
      /\ (forall j, j < k - 1 ->
            attempt_err (api (length (delete_calls w) + j)) <> None
            /\ attempt_cancelled (api (length (delete_calls w) + j)) = false)
      /\ let last := api (length (delete_calls w) + (k - 1)) in
         (attempt_err last = None /\ finished = true)
         \/ (attempt_err last <> None /\ attempt_cancelled last = true
             /\ finished = false)
         \/ (k = n /\ attempt_err last <> None
             /\ attempt_cancelled last = false /\ finished = true).
Proof.
  induction n as [|n IH]; intros w w' finished H Hn; [lia|].
  cbn [delete_attempts] in H.
  destruct (attempt_err (api (length (delete_calls w)))) as [err|] eqn:He.
  - destruct (attempt_cancelled (api (length (delete_calls w)))) eqn:Hc.
    + injection H as <- <-. exists 1. simpl. rewrite Nat.add_0_r.
      repeat split; auto; try lia.
      right. left. rewrite He, Hc. repeat split; auto. discriminate.
    + destruct n as [|n].
      * simpl in H. injection H as <- <-. exists 1. simpl.
        rewrite Nat.add_0_r. repeat split; auto; try lia.
        right. right. rewrite He, Hc. repeat split; auto. discriminate.
      * apply IH in H; [|lia].
        destruct H as (k & Hk & Hcalls & Hent & Hbefore & Hlast).
        cbn [delete_printf delete_called delete_calls Entries] in *.
        rewrite length_app in Hbefore, Hlast. simpl in Hbefore, Hlast.
        exists (S k). split; [lia|]. split.
        { rewrite Hcalls, <- app_assoc. reflexivity. }
        split; [exact Hent|]. split.
        { intros j Hj. destruct j as [|j].
          - rewrite Nat.add_0_r, He, Hc. split; [discriminate | reflexivity].
          - replace (length (delete_calls w) + S j)
              with (length (delete_calls w) + 1 + j) by lia.
            apply Hbefore. lia. }
        replace (length (delete_calls w) + (S k - 1))
          with (length (delete_calls w) + 1 + (k - 1)) by lia.
        destruct Hlast as [H|[H|H]]; [now left | now right; left |].
        right. right. destruct H as (-> & H). split; [reflexivity | exact H].
  - injection H as <- <-. exists 1. simpl. rewrite Nat.add_0_r.
    repeat split; auto; try lia.
Qed.

(** X6.  A flush of a non-empty batch makes between one and three
    delete calls, all with the batch as it stands.  It stops at the
    first call that succeeds, at the first failed call whose pause is
    cut short by cancellation, or after the third failure; every call
    before the last one failed.  The batch is emptied in the first and
    the third case and left in place in the second.  A flush of an empty
    batch does nothing. *)
Theorem flush_retries_at_most_three_times :
  forall w : DeleteWorld,
    let w' := deleteMessages api w in
    let base := length (delete_calls w) in
    (Entries w = [] -> w' = w)
    /\ (Entries w <> [] ->
        exists k,
          1 <= k <= 3
          /\ delete_calls w' = delete_calls w ++ repeat (Entries w) k
          /\ (forall j, j < k - 1 ->
                attempt_err (api (base + j)) <> None
                /\ attempt_cancelled (api (base + j)) = false)
          /\ let last := api (base + (k - 1)) in
             (attempt_err last = None /\ Entries w' = [])
             \/ (attempt_err last <> None /\ attempt_cancelled last = true
                 /\ Entries w' = Entries w)
             \/ (k = 3 /\ attempt_err last <> None
                 /\ attempt_cancelled last = false /\ Entries w' = [])).
Proof.
  intros w w' base. subst w'. unfold deleteMessages. split.
  - now intros ->.
  - intros Hne. destruct (Entries w) as [|e es] eqn:Hes; [contradiction|].
    destruct (delete_attempts api 3 w) as [w1 finished] eqn:Ha.
    apply delete_attempts_answers in Ha; [|lia].
    destruct Ha as (k & Hk & Hcalls & Hent & Hbefore & Hlast).
    rewrite Hes in Hcalls, Hent.
    exists k. split; [exact Hk|]. split.
    { now destruct finished. }
    split; [exact Hbefore|].
    destruct Hlast as [[H ->]|[(H1 & H2 & ->)|(H0 & H1 & H2 & ->)]].
    + now left.
    + right. left. auto.
    + right. right. auto.
Qed.

End DeleteRetry.

Section DeleteConservation.

Variable api : nat -> DeleteAttempt.
Hypothesis deletes_succeed : never_fails api.

Lemma deleteMessages_conserves (w : DeleteWorld) :
  submitted (deleteMessages api w) ++ pending (deleteMessages api w)
  = submitted w ++ pending w
  /\ Entries (deleteMessages api w) = [].
Proof.
  destruct (Entries w) as [|e es] eqn:He.
  - unfold deleteMessages. rewrite He. auto.
  - rewrite deleteMessages_first_try by (auto; congruence).
    unfold submitted, pending. simpl.
    rewrite flat_map_app. simpl. rewrite !app_nil_r. auto.
Qed.

Lemma flush_if_full_conserves (w : DeleteWorld) :
  submitted (flush_if_full api w) ++ pending (flush_if_full api w)
  = submitted w ++ pending w.
Proof.
  unfold flush_if_full.
  destruct (length (Entries w) =? 10)%nat; [|reflexivity].
  apply deleteMessages_conserves.
Qed.

Lemma delete_for_conserves (arms : list delete_arm) :
  Forall steady arms ->
  forall w,
    snd (delete_for api w arms) = Running
    /\ submitted (fst (delete_for api w arms))
       ++ pending (fst (delete_for api w arms))
       = submitted w ++ pending w ++ delivered arms.
Proof.
  induction 1 as [|a arms Ha _ IH]; intros w; cbn [delete_for].
  - simpl. rewrite app_nil_r. auto.
  - destruct a as [| |[v|]]; try contradiction; cbn [delete_select].
    + destruct (IH (flush_if_full api (deleteMessages api w))) as [Hr Hs].
      split; [exact Hr|].
      rewrite Hs, app_assoc, flush_if_full_conserves.
      destruct (deleteMessages_conserves w) as [-> _].
      now rewrite <- app_assoc.
    + destruct (IH (flush_if_full api (append_entry w v))) as [Hr Hs].
      split; [exact Hr|].
      rewrite Hs, app_assoc, flush_if_full_conserves.
      unfold submitted, pending. simpl. rewrite map_app. simpl.
      now rewrite <- !app_assoc.
Qed.

(** X8.  While the delete calls succeed, over any ticks and arrivals
    the receipt handles submitted in delete calls, followed by those of
    the batch still pending, are the receipt handles of the completed
    messages in the order they arrived: none is lost, none is submitted
    twice, none is submitted before its message arrived. *)
Theorem handles_are_submitted_once_in_order :
  forall arms : list delete_arm,
    Forall steady arms ->
    let w := fst (delete_for api delete_start arms) in
    snd (delete_for api delete_start arms) = Running
    /\ submitted w ++ pending w = delivered arms.
Proof.
  intros arms Hs w. subst w.
  destruct (delete_for_conserves Hs delete_start) as [Hr Hc].
  split; [exact Hr | exact Hc].
Qed.

Lemma deleteLoop_final_flush :
  forall (arms rest : list delete_arm),
    Forall steady arms ->
    let w := fst (deleteLoop api delete_start (arms ++ DDone :: rest)) in
    snd (deleteLoop api delete_start (arms ++ DDone :: rest))
    = Returned (Some Canceled)
    /\ Entries w = []
    /\ submitted w = delivered arms.
Proof.
  intros arms rest Hs w. subst w. unfold deleteLoop.
  assert (Hfor : forall w0,
             delete_for api w0 (arms ++ DDone :: rest)
             = (fst (delete_for api w0 arms), Returned (Some Canceled))).
  { clear -Hs. induction Hs as [|a arms Ha _ IH]; intros w0;
      cbn [app delete_for].
    - reflexivity.
    - destruct a as [| |[v|]]; try contradiction; cbn [delete_select];
        apply IH. }
  rewrite Hfor. cbn [fst snd].
  destruct (delete_for_conserves Hs delete_start) as [_ Hc].
  destruct (deleteMessages_conserves (fst (delete_for api delete_start arms)))
    as [Hd He].
  change (submitted delete_start ++ pending delete_start ++ delivered arms)
    with (delivered arms) in Hc.
  repeat split; [exact He|].
  rewrite <- Hc, <- Hd. unfold pending at 1. rewrite He. simpl.
  now rewrite app_nil_r.
Qed.

(** X9.  The deferred flush: when, after any ticks and arrivals, the
    stage takes [<-ctx.Done()], it returns the cancellation error after
    one more flush.  With an API whose delete calls succeed whatever the
    context (as the test's mock does), nothing is left pending then:
    every completed message's receipt handle has been submitted, once,
    in arrival order. *)
Theorem shutdown_flushes_the_pending_batch :
  forall (arms rest : list delete_arm),
    Forall steady arms ->
    let w := fst (deleteLoop api delete_start (arms ++ DDone :: rest)) in
    snd (deleteLoop api delete_start (arms ++ DDone :: rest))
    = Returned (Some Canceled)
    /\ Entries w = []
    /\ submitted w = delivered arms.
Proof. intros arms rest Hs. now apply deleteLoop_final_flush. Qed.

End DeleteConservation.

Section DeletePanic.

Variable api : nat -> DeleteAttempt.

(** X10.  A nil message on the completed channel makes [deleteLoop]
    panic where it reads the receipt handle: no later arm is taken, and
    the deferred flush runs on the batch as it stood. *)
Theorem nil_message_panics_deleteLoop :
  forall (arms rest : list delete_arm) (w : DeleteWorld),
    Forall steady arms ->
    deleteLoop api w (arms ++ DCompleted None :: rest)
    = (deleteMessages api (fst (delete_for api w arms)), Panicked).
Proof.
  intros arms rest w Hs. unfold deleteLoop.
  assert (Hfor : forall w0,
             delete_for api w0 (arms ++ DCompleted None :: rest)
             = (fst (delete_for api w0 arms), Panicked)).
  { clear -Hs. induction Hs as [|a arms Ha _ IH]; intros w0;
      cbn [app delete_for].
    - reflexivity.
    - destruct a as [| |[v|]]; try contradiction; cbn [delete_select];
        apply IH. }
  now rewrite Hfor.
Qed.

End DeletePanic.

Lemma handles_witness :
  never_fails always_ok
  /\ Forall steady
       [DCompleted (Some first_message); DTick;
        DCompleted (Some second_message)]
  /\ submitted
       (fst (delete_for always_ok delete_start
               [DCompleted (Some first_message); DTick;
                DCompleted (Some second_message)]))
     ++ pending
          (fst (delete_for always_ok delete_start
                  [DCompleted (Some first_message); DTick;
                   DCompleted (Some second_message)]))
     = [Some "rh-a"; Some "rh-b"].
Proof.
  assert (Hok : never_fails always_ok) by (intros k; reflexivity).
  assert (Hs : Forall steady
                 [DCompleted (Some first_message); DTick;
                  DCompleted (Some second_message)])
    by (repeat constructor).
  split; [exact Hok|]. split; [exact Hs|].
  exact (proj2 (handles_are_submitted_once_in_order Hok Hs)).
Defined.

Lemma shutdown_witness :
  never_fails always_ok
  /\ Forall steady [DCompleted (Some first_message)]
  /\ deleteLoop always_ok delete_start
       ([DCompleted (Some first_message)] ++ [DDone])
     = ({| Entries := [];
           delete_calls := [[{| Id := "0";
                                EntryReceiptHandle := Some "rh-a" |}]];
           delete_log := [LogDeleted 1] |}, Returned (Some Canceled))
  /\ submitted
       (fst (deleteLoop always_ok delete_start
               ([DCompleted (Some first_message)] ++ [DDone])))
     = [Some "rh-a"].
Proof.
  assert (Hok : never_fails always_ok) by (intros k; reflexivity).
  assert (Hs : Forall steady [DCompleted (Some first_message)])
    by (repeat constructor).
  split; [exact Hok|]. split; [exact Hs|]. split; [reflexivity|].
  destruct (shutdown_flushes_the_pending_batch Hok [] Hs) as (_ & _ & H).
  exact H.
Defined.

Lemma nil_panic_witness :
  Forall steady [DCompleted (Some first_message)]
  /\ deleteLoop always_ok delete_start
       ([DCompleted (Some first_message)] ++ DCompleted None :: [DTick])
     = ({| Entries := [];
           delete_calls := [[{| Id := "0";
                                EntryReceiptHandle := Some "rh-a" |}]];
           delete_log := [LogDeleted 1] |}, Panicked).
Proof.
  assert (Hs : Forall steady [DCompleted (Some first_message)])
    by (repeat constructor).
  split; [exact Hs|].
  exact (nil_message_panics_deleteLoop always_ok [DTick] delete_start Hs).
Defined.

(** *** The three stages together *)

(** The receipt handle [deleteLoop] reads off a message. *)
Definition message_handle (v : option Message) : option string :=
  match v with
  | Some m => ReceiptHandle m
  | None => None
  end.

(** The messages the arms take from the completed channel, in order. *)
Definition arrived (arms : list delete_arm) : list (option Message) :=
  flat_map
    (fun a => match a with DCompleted v => [v] | _ => [] end) arms.

Lemma delivered_arrived (arms : list delete_arm) :
  Forall steady arms ->
  delivered arms = map message_handle (arrived arms).
Proof.
  induction 1 as [|a arms Ha _ IH]; [reflexivity|].
  destruct a as [| |[v|]]; try contradiction; simpl; now rewrite IH.
Qed.

Section Pipeline.

Variable Event : Type.
Variable UnmarshalEvent : bytes -> result Event.
Variable HState : Type.
Variable fn : HState -> Event -> HState * option error.
Variable api : nat -> DeleteAttempt.

Lemma events_of_all (vs : list (option Message)) :
  (forall v, In v vs -> message_event UnmarshalEvent v <> None) ->
  map Some (events_of UnmarshalEvent vs)
  = map (message_event UnmarshalEvent) vs.
Proof.
  induction vs as [|v vs IH]; intros Hall; [reflexivity|].
  unfold events_of in *. cbn [flat_map map].
  pose proof (Hall v (or_introl eq_refl)) as Hv.
  destruct (message_event UnmarshalEvent v) as [ev|]; [|congruence].
  simpl. f_equal. apply IH. intros x Hx. apply Hall. now right.
Qed.

(** X11.  The stages composed through their channels.  Take any rounds
    of the receive stage, let the handle stage take the messages sent on
    the received channel and still be running, and let the acknowledge
    stage take the messages sent on the completed channel, with ticks in
    between, and then shut down.  If the delete calls succeed, then:
    - the receipt handles submitted for deletion are those of the
      messages the receive stage sent, one for one and in that order,
      and nothing stays pending;
    - the handler was called, in that order, on the event of each of
      these messages that has one; a message with a nil body, or with a
      body that is not base64, has none: it is acknowledged without a
      handler call;
    - so when every message has an event, messages, handler calls and
      submitted handles correspond one for one. *)
Theorem pipeline_deletes_what_it_handled :
  forall (rounds : list ReceiveRound)
         (hw : HandleWorld Event HState) (harms : list handle_arm)
         (darms rest : list delete_arm),
    let rw := fst (receiveLoop receive_start rounds) in
    let hw' := fst (handleLoop UnmarshalEvent fn hw harms) in
    let dw := fst (deleteLoop api delete_start (darms ++ DDone :: rest)) in
    completed hw = [] ->
    dispatched hw = [] ->
    taken harms = received rw ->
    snd (handleLoop UnmarshalEvent fn hw harms) = Running ->
    Forall steady darms ->
    arrived darms = completed hw' ->
    never_fails api ->
    (exists unsent, offered rounds = received rw ++ unsent)
    /\ submitted dw = map message_handle (received rw)
    /\ length (submitted dw) = length (received rw)
    /\ Entries dw = []
    /\ dispatched hw' = events_of UnmarshalEvent (received rw)
    /\ length (dispatched hw') <= length (received rw)
    /\ ((forall v, In v (received rw) ->
                   message_event UnmarshalEvent v <> None) ->
        map Some (dispatched hw')
        = map (message_event UnmarshalEvent) (received rw)).
Proof.
  intros rounds hw harms darms rest rw hw' dw Hc0 Hd0 Htaken Hrun Hs Harr Hok.
  destruct (receiveLoop_sends_a_prefix rounds receive_start)
    as (sent & unsent & Hoff & Hrec & _).
  fold rw in Hrec. simpl in Hrec. subst sent.
  destruct (handleLoop_sends_a_prefix UnmarshalEvent fn harms hw)
    as (n & m & _ & _ & _ & Hall).
  destruct (Hall Hrun) as [Hcompleted Hdispatched].
  fold hw' in Hcompleted, Hdispatched.
  rewrite Hc0, Htaken in Hcompleted. rewrite Hd0, Htaken in Hdispatched.
  simpl in Hcompleted, Hdispatched.
  destruct (deleteLoop_final_flush Hok rest Hs)
    as (_ & He & Hsub).
  fold dw in He, Hsub.
  assert (Hhandles : submitted dw = map message_handle (received rw)).
  { rewrite Hsub, delivered_arrived by exact Hs.
    now rewrite Harr, Hcompleted. }
  split; [now exists unsent|]. split; [exact Hhandles|].
  split; [now rewrite Hhandles, length_map|]. split; [exact He|].
  split; [exact Hdispatched|]. split.
  - rewrite Hdispatched. clear.
    induction (received rw) as [|v vs IH]; [apply le_n|].
    unfold events_of in *. cbn [flat_map].
    rewrite length_app.
    destruct (message_event UnmarshalEvent v); simpl; lia.
  - intros Hev. rewrite Hdispatched. now apply events_of_all.
Qed.

End Pipeline.

Lemma pipeline_witness :
  never_fails always_ok
  /\ dispatched
       (fst (handleLoop Sample.UnmarshalEvent Sample.fn handle_start
               [HReceived (Some blah) true; HReceived (Some bodiless) true]))
     = ["{blah}"]
  /\ submitted
       (fst (deleteLoop always_ok delete_start
               ([DCompleted (Some blah); DTick; DCompleted (Some bodiless)]
                ++ [DDone])))
     = [Some "rh-4"; Some "rh-5"].
Proof.
  assert (Hok : never_fails always_ok) by (intros k; reflexivity).
  assert (Hs : Forall steady
                 [DCompleted (Some blah); DTick; DCompleted (Some bodiless)])
    by (repeat constructor).
  split; [exact Hok|].
  destruct (pipeline_deletes_what_it_handled
              Sample.UnmarshalEvent Sample.fn (api := always_ok)
              [ {| round_result := Ok [Some blah; Some bodiless];
                   round_backoff_cancelled := false;
                   round_sent := 2;
                   round_done_after := false |} ]
              handle_start
              [HReceived (Some blah) true; HReceived (Some bodiless) true]
              (darms := [DCompleted (Some blah); DTick;
                         DCompleted (Some bodiless)])
              []
              eq_refl eq_refl eq_refl eq_refl Hs eq_refl Hok)
    as (_ & Hsub & _ & _ & Hd & _).
  split; [exact Hd | exact Hsub].
Defined.

(** *** The test's mock of the queue API *)

Section MockQueue.

Variable Event : Type.
(** [m.serializer.MarshalEvent(event)], giving [record.Data]. *)
Variable MarshalEvent : Event -> result bytes.
Variable UnmarshalEvent : bytes -> result Event.
Variable HState : Type.
Variable fn : HState -> Event -> HState * option error.

(** The message [Mock.ReceiveMessageWithContext] builds. *)
Definition mock_message (data : bytes) : Message :=
  {| Body := Some (Base64.EncodeToString data); ReceiptHandle := None |}.

(** [Mock.ReceiveMessageWithContext] on the events the mock still
    holds: the events it holds afterwards and what it returns.  With no
    event left it waits for [<-ctx.Done()] and returns [ctx.Err()]. *)
Definition Mock_ReceiveMessageWithContext (events : list Event)
  : list Event * result (list (option Message)) :=
  match events with
  | [] => ([], Failed Canceled)
  | event :: rest =>
    match MarshalEvent event with
    | Failed err => (rest, Failed err)
    | Ok data => (rest, Ok [Some (mock_message data)])
    end
  end.

(** The rounds of [receiveLoop] against the mock: the mock's answers,
    and for the rest what the environment chooses in [choices]; when
    the mock returned because the context is done, the backoff select
    takes [<-ctx.Done()]. *)
Fixpoint mock_rounds (events : list Event) (choices : list ReceiveRound)
  : list ReceiveRound :=
  match choices with
  | [] => []
  | choice :: later =>
    let (events', answer) := Mock_ReceiveMessageWithContext events in
    {| round_result := answer;
       round_backoff_cancelled :=
         match events with
         | [] => true
         | _ => round_backoff_cancelled choice
         end;
       round_sent := round_sent choice;
       round_done_after := round_done_after choice |}
      :: mock_rounds events' later
  end.

(** Nothing is cancelled while the mock has events. *)
Definition undisturbed (choice : ReceiveRound) : Prop :=
  round_sent choice = 1
  /\ round_done_after choice = false
  /\ round_backoff_cancelled choice = false.

(** The serializer reads back what it wrote. *)
Definition round_trips (events : list Event) : Prop :=
  forall event,
    In event events ->
    exists data,
      MarshalEvent event = Ok data /\ UnmarshalEvent data = Ok event.

Definition mock_arms (events : list Event) : list handle_arm :=
  flat_map
    (fun event =>
       match MarshalEvent event with
       | Ok data => [HReceived (Some (mock_message data)) true]
       | Failed _ => []
       end) events.

Lemma receiveLoop_mock (events : list Event) :
  round_trips events ->
  forall choices last w,
    length choices = length events ->
    Forall undisturbed choices ->
    receiveLoop w (mock_rounds events (choices ++ [last]))
    = ({| received := received w ++ taken (mock_arms events);
          receive_calls := receive_calls w + S (length events);
          receive_log :=
            receive_log w ++ repeat (LogReceived 1) (length events) |},
       Returned (Some Canceled)).
Proof.
  induction events as [|event events IH]; intros Hrt choices last w Hlen Hu.
  - destruct choices; [|discriminate]. simpl.
    rewrite !app_nil_r, Nat.add_1_r. reflexivity.
  - destruct choices as [|choice choices]; [discriminate|].
    inversion Hu as [|c cs (Hsent & Hafter & Hback) Hu']; subst.
    destruct (Hrt event (or_introl eq_refl)) as (data & Hm & _).
    cbn [app mock_rounds Mock_ReceiveMessageWithContext].
    rewrite Hm. cbn [receiveLoop round_result round_sent round_done_after].
    rewrite Hsent, Hafter. cbn [send_messages].
    rewrite IH; auto.
    + unfold mock_arms. cbn [flat_map]. rewrite Hm. simpl.
      rewrite <- !app_assoc. simpl.
      do 2 f_equal. f_equal. lia.
    + intros e He. apply Hrt. now right.
Qed.

Lemma handleLoop_mock (events : list Event) :
  round_trips events ->
  (forall st event, In event events -> snd (fn st event) = None) ->
  forall w : HandleWorld Event HState,
    exists w',
      handleLoop UnmarshalEvent fn w (mock_arms events) = (w', Running)
      /\ dispatched w' = dispatched w ++ events
      /\ completed w' = completed w ++ taken (mock_arms events).
Proof.
  induction events as [|event events IH]; intros Hrt Hfn w.
  - exists w. simpl. rewrite !app_nil_r. auto.
  - destruct (Hrt event (or_introl eq_refl)) as (data & Hm & Hu).
    unfold mock_arms. cbn [flat_map]. rewrite Hm. fold (mock_arms events).
    cbn [app handleLoop handleMessage mock_message Body].
    rewrite Base64.decode_encode, Hu.
    pose proof (Hfn (handler_state (unmarshal_called w data)) event
                  (or_introl eq_refl)) as Hok.
    destruct (fn (handler_state (unmarshal_called w data)) event)
      as [st r]. simpl in Hok. subst r.
    destruct (IH (fun e He => Hrt e (or_intror He))
                 (fun st0 e He => Hfn st0 e (or_intror He))
                 (completed_send
                    (fn_called (unmarshal_called w data) event st)
                    (Some (mock_message data))))
      as (w' & Hloop & Hd & Hc).
    exists w'. split; [exact Hloop|]. simpl in Hd, Hc.
    rewrite Hd, Hc, <- !app_assoc. auto.
Qed.

(** X14.  The test, for any events.  Against the mock, with a
    serializer that reads back what it wrote for these events and while
    nothing is cancelled, [receiveLoop] sends one message per event on
    the received channel and returns the cancellation error once the
    mock has no event left and the context is done; and [handleLoop],
    taking these messages, calls the handler on exactly these events, in
    order, and forwards every message, as long as the handler accepts
    them. *)
Theorem mock_events_reach_the_handler_in_order :
  forall (events : list Event) (choices : list ReceiveRound)
         (last : ReceiveRound) (hw : HandleWorld Event HState),
    round_trips events ->
    (forall st event, In event events -> snd (fn st event) = None) ->
    length choices = length events ->
    Forall undisturbed choices ->
    let rw := fst (receiveLoop receive_start
                     (mock_rounds events (choices ++ [last]))) in
    let hw' := fst (handleLoop UnmarshalEvent fn hw
                      (map (fun v => HReceived v true) (received rw))) in
    snd (receiveLoop receive_start (mock_rounds events (choices ++ [last])))
    = Returned (Some Canceled)
    /\ length (received rw) = length events
    /\ receive_calls rw = S (length events)
    /\ snd (handleLoop UnmarshalEvent fn hw
              (map (fun v => HReceived v true) (received rw))) = Running
    /\ dispatched hw' = dispatched hw ++ events
    /\ completed hw' = completed hw ++ received rw.
Proof.
  intros events choices last hw Hrt Hfn Hlen Hu rw hw'.
  subst rw hw'.
  rewrite (receiveLoop_mock Hrt last receive_start Hlen Hu).
  cbn [fst snd received receive_calls receive_start app Nat.add].
  assert (Harms : map (fun v => HReceived v true) (taken (mock_arms events))
                  = mock_arms events).
  { clear. unfold mock_arms, taken.
    induction events as [|e es IH]; simpl; [reflexivity|].
    destruct (MarshalEvent e); simpl; now rewrite IH. }
  assert (Hcount : length (taken (mock_arms events)) = length events).
  { clear -Hrt. induction events as [|e es IH]; [reflexivity|].
    destruct (Hrt e (or_introl eq_refl)) as (data & Hm & _).
    unfold mock_arms, taken in *. simpl. rewrite Hm. simpl.
    f_equal. apply IH. intros x Hx. apply Hrt. now right. }
  rewrite Harms.
  destruct (handleLoop_mock Hrt Hfn hw) as (w' & Hloop & Hd & Hc).
  rewrite Hloop. simpl. repeat split; auto.
Qed.

End MockQueue.

(** A serializer that writes an event as its own bytes. *)
Definition sample_marshal (event : Sample.Event) : result bytes :=
  Ok (bytes_of_string event).

Lemma mock_witness :
  round_trips sample_marshal Sample.UnmarshalEvent ["{blah}"; "{bleh}"]
  /\ dispatched
       (fst (handleLoop Sample.UnmarshalEvent Sample.fn handle_start
               (map (fun v => HReceived v true)
                  (received
                     (fst (receiveLoop receive_start
                             (mock_rounds sample_marshal ["{blah}"; "{bleh}"]
                                (repeat
                                   {| round_result := Ok [];
                                      round_backoff_cancelled := false;
                                      round_sent := 1;
                                      round_done_after := false |} 3))))))))
     = ["{blah}"; "{bleh}"].
Proof.
  assert (Hrt : round_trips sample_marshal Sample.UnmarshalEvent
                  ["{blah}"; "{bleh}"]).
  { intros e [<-|[<-|[]]]; eexists; split; reflexivity. }
  assert (Hfn : forall st event,
             In event ["{blah}"; "{bleh}"] ->
             snd (Sample.fn st event) = None).
  { intros st e [<-|[<-|[]]]; reflexivity. }
  assert (Hu : Forall undisturbed
                 (repeat
                    {| round_result := Ok [];
                       round_backoff_cancelled := false;
                       round_sent := 1;
                       round_done_after := false |} 2))
    by (repeat constructor).
  split; [exact Hrt|].
  destruct (@mock_events_reach_the_handler_in_order
              _ sample_marshal Sample.UnmarshalEvent _ Sample.fn
              ["{blah}"; "{bleh}"]
              (repeat
                 {| round_result := Ok [];
                    round_backoff_cancelled := false;
                    round_sent := 1;
                    round_done_after := false |} 2)
              {| round_result := Ok [];
                 round_backoff_cancelled := false;
                 round_sent := 1;
                 round_done_after := false |}
              handle_start Hrt Hfn eq_refl Hu)
    as (_ & _ & _ & _ & Hd & _).
  exact Hd.
Defined.

(** *** The batch after a flush that cancellation cut short *)

(** C5, the code at the failing input.  Ten arrivals fill the batch and
    the flush runs at once, as the claim says; but its delete call fails
    and cancellation fires in the pause, so the flush returns with the
    ten entries still in the batch.  The select may then take further
    arrivals before it takes [<-ctx.Done()]: the batch holds eleven,
    then twelve entries, and no flush runs on their arrival (the test is
    for exactly ten); the next tick, or the deferred flush once the loop
    is left, sends the twelve entries in one call. *)
Theorem batch_grows_past_ten_after_a_cancelled_flush :
  (let w := fst (delete_for cancelled_in_pause delete_start
                   (arrivals (repeat first_message 10))) in
   length (Entries w) = 10 /\ map (length (A := Entry)) (delete_calls w) = [10])
  /\ (let w := fst (delete_for cancelled_in_pause delete_start
                      (arrivals (repeat first_message 10
                                 ++ [second_message]))) in
      length (Entries w) = 11
      /\ map (length (A := Entry)) (delete_calls w) = [10])
  /\ (let w := fst (delete_for cancelled_in_pause delete_start
                      (arrivals (repeat first_message 10
                                 ++ [second_message; second_message])
                       ++ [DTick])) in
      length (Entries w) = 12
      /\ map (length (A := Entry)) (delete_calls w) = [10; 12])
  /\ map (length (A := Entry))
       (delete_calls
          (fst (deleteLoop cancelled_in_pause delete_start
                  (arrivals (repeat first_message 10
                             ++ [second_message; second_message])
                   ++ [DDone]))))
     = [10; 12].
Proof. repeat split. Qed.

End Queue.

(** ** Package [s3firehose]: the replay path *)

Module S3Firehose.
Import Go.

(** [s3.ListObjectsV2Output]: the keys of [Contents] (each [*item.Key],
    taken to be non-nil), and the token. *)
Record ListObjectsV2Output : Type := {
  Contents : list string;
  NextContinuationToken : option string
}.

Section ReplayPath.

Variable Event : Type.
Variable UnmarshalEvent : bytes -> result Event.
Variable HState : Type.
Variable fn : HState -> Event -> HState * option error.

(** [api.ListObjectsV2WithContext] at a bucket, a prefix and a token. *)
Variable ListObjectsV2 :
  string -> string -> option string -> result ListObjectsV2Output.
(** [api.GetObjectWithContext] at a bucket and a key: the error, or the
    lines that [bufio.Scanner] yields from [output.Body] until [Scan]
    returns false.  The code never looks at the scanner's own error. *)
Variable GetObject : string -> string -> result (list string).

Record ReplayWorld : Type := {
  replay_state : HState;
  replayed : list Event       (* arguments of fn, oldest first *)
}.

Definition replay_called (w : ReplayWorld) (ev : Event) (st : HState)
  : ReplayWorld :=
  {| replay_state := st; replayed := replayed w ++ [ev] |}.

(** [for line := 1; s.Scan(); line++ { ... }] *)
Fixpoint scan (w : ReplayWorld) (line : nat) (lines : list string)
  : ReplayWorld * option error :=
  match lines with
  | [] => (w, None)
  | text :: rest =>
    match DecodeString text with
    | Failed err => (w, Some (UnableToDecodeLine line err))
    | Ok data =>
      match UnmarshalEvent data with
      | Failed err => (w, Some (UnableToUnmarshalEvent err))
      | Ok event =>
        match fn (replay_state w) event with
        | (st, Some err) => (replay_called w event st, Some err)
        | (st, None) => scan (replay_called w event st) (S line) rest
        end
      end
    end
  end.

Definition handleObject (w : ReplayWorld) (bucket key : string)
  : ReplayWorld * option error :=
  match GetObject bucket key with
  | Failed err => (w, Some err)
  | Ok lines => scan w 1 lines
  end.

(** [for _, item := range output.Contents { ... }] *)
Fixpoint range_contents (w : ReplayWorld) (bucket : string)
  (keys : list string) : ReplayWorld * option error :=
  match keys with
  | [] => (w, None)
  | key :: rest =>
    match handleObject w bucket key with
    | (w1, Some err) => (w1, Some (UnableToProcess bucket key err))
    | (w1, None) => range_contents w1 bucket rest
    end
  end.

(** The [for] of [Replay], one listing call per unit of [fuel]:
    [Running] when the listing has not ended after [fuel] pages. *)
Fixpoint replay_for (fuel : nat) (w : ReplayWorld) (bucket prefix : string)
  (token : option string) : ReplayWorld * outcome :=
  match fuel with
  | O => (w, Running)
  | S fuel' =>
    match ListObjectsV2 bucket prefix token with
    | Failed err => (w, Returned (Some (UnableToList bucket prefix err)))
    | Ok output =>
      match range_contents w bucket (Contents output) with
      | (w1, Some err) => (w1, Returned (Some err))
      | (w1, None) =>
        match NextContinuationToken output with
        | None => (w1, Returned None)
        | Some t => replay_for fuel' w1 bucket prefix (Some t)
        end
      end
    end
  end.

Definition Replay (fuel : nat) (w : ReplayWorld) (bucket prefix : string)
  : ReplayWorld * outcome :=
  replay_for fuel w bucket prefix None.

(** *** The replay as the specification words it: one iterator over
    (object x line), consumed in order up to the first failure *)

Inductive replay_item : Type :=
| ListFailure (err : error)                 (* a listing call failed *)
| ReadFailure (key : string) (err : error)  (* an object could not be read *)
| Line (key : string) (line : nat) (text : string).

Fixpoint number_lines (key : string) (line : nat) (lines : list string)
  : list replay_item :=
  match lines with
  | [] => []
  | text :: rest => Line key line text :: number_lines key (S line) rest
  end.

Definition object_items (bucket key : string) : list replay_item :=
  match GetObject bucket key with
  | Failed err => [ReadFailure key err]
  | Ok lines => number_lines key 1 lines
  end.

(** The items of the archive in object-list order then line order;
    [None] when the listing has not ended after [fuel] pages. *)
Fixpoint archive_items (fuel : nat) (bucket prefix : string)
  (token : option string) : option (list replay_item) :=
  match fuel with
  | O => None
  | S fuel' =>
    match ListObjectsV2 bucket prefix token with
    | Failed err => Some [ListFailure err]
    | Ok output =>
      let here := flat_map (object_items bucket) (Contents output) in
      match NextContinuationToken output with
      | None => Some here
      | Some t =>
        match archive_items fuel' bucket prefix (Some t) with
        | Some later => Some (here ++ later)
        | None => None
        end
      end
    end
  end.

(** The event a line decodes to, when it does. *)
Definition decoded (text : string) : option Event :=
  match DecodeString text with
  | Failed _ => None
  | Ok data =>
    match UnmarshalEvent data with
    | Failed _ => None
    | Ok event => Some event
    end
  end.

Definition item_event (i : replay_item) : option Event :=
  match i with
  | Line _ _ text => decoded text
  | _ => None
  end.

(** The events of a run of items, in order. *)
Fixpoint item_events (items : list replay_item) : list Event :=
  match items with
  | [] => []
  | i :: rest =>
    match item_event i with
    | Some ev => ev :: item_events rest
    | None => item_events rest
    end
  end.

(** Consuming one item: the error that aborts the replay, if any. *)
Definition consume (w : ReplayWorld) (bucket prefix : string)
  (i : replay_item) : ReplayWorld * option error :=
  match i with
  | ListFailure err => (w, Some (UnableToList bucket prefix err))
  | ReadFailure key err => (w, Some (UnableToProcess bucket key err))
  | Line key line text =>
    match DecodeString text with
    | Failed err =>
      (w, Some (UnableToProcess bucket key (UnableToDecodeLine line err)))
    | Ok data =>
      match UnmarshalEvent data with
      | Failed err =>
        (w, Some (UnableToProcess bucket key (UnableToUnmarshalEvent err)))
      | Ok event =>
        match fn (replay_state w) event with
        | (st, Some err) =>
          (replay_called w event st, Some (UnableToProcess bucket key err))
        | (st, None) => (replay_called w event st, None)
        end
      end
    end
  end.

Fixpoint iterate (w : ReplayWorld) (bucket prefix : string)
  (items : list replay_item) : ReplayWorld * option error :=
  match items with
  | [] => (w, None)
  | i :: rest =>
    match consume w bucket prefix i with
    | (w1, Some err) => (w1, Some err)
    | (w1, None) => iterate w1 bucket prefix rest
    end
  end.

(** An item at which the replay aborts when it is consumed in [w]. *)
Definition fails (w : ReplayWorld) (i : replay_item) : Prop :=
  match i with
  | ListFailure _ => True
  | ReadFailure _ _ => True
  | Line _ _ text =>
    match decoded text with
    | None => True
    | Some event => snd (fn (replay_state w) event) <> None
    end
  end.

(** No item of [items] fails in the state the iterator reaches it in. *)
Definition no_failure (w : ReplayWorld) (bucket prefix : string)
  (items : list replay_item) : Prop :=
  forall pre i post w1,
    items = pre ++ i :: post ->
    iterate w bucket prefix pre = (w1, None) ->
    ~ fails w1 i.

Definition wrap (bucket key : string) (r : option error) : option error :=
  match r with
  | Some err => Some (UnableToProcess bucket key err)
  | None => None
  end.

Lemma scan_iterate (bucket prefix key : string) (lines : list string) :
  forall w line,
    iterate w bucket prefix (number_lines key line lines)
    = (fst (scan w line lines), wrap bucket key (snd (scan w line lines))).
Proof.
  induction lines as [|text lines IH]; intros w line; simpl.
  - reflexivity.
  - destruct (DecodeString text) as [data|err]; [|reflexivity].
    destruct (UnmarshalEvent data) as [event|err]; [|reflexivity].
    destruct (fn (replay_state w) event) as [st [err|]]; [reflexivity|].
    apply IH.
Qed.

Lemma handleObject_iterate (bucket prefix key : string) (w : ReplayWorld) :
  iterate w bucket prefix (object_items bucket key)
  = (fst (handleObject w bucket key),
     wrap bucket key (snd (handleObject w bucket key))).
Proof.
  unfold object_items, handleObject.
  destruct (GetObject bucket key) as [lines|err]; [|reflexivity].
  apply scan_iterate.
Qed.

Lemma iterate_app (bucket prefix : string) (a b : list replay_item) :
  forall w,
    iterate w bucket prefix (a ++ b)
    = match iterate w bucket prefix a with
      | (w1, Some err) => (w1, Some err)
      | (w1, None) => iterate w1 bucket prefix b
      end.
Proof.
  induction a as [|i a IH]; intros w; simpl.
  - reflexivity.
  - destruct (consume w bucket prefix i) as [w1 [err|]]; [reflexivity|].
    apply IH.
Qed.

Lemma range_contents_iterate (bucket prefix : string) (keys : list string) :
  forall w,
    range_contents w bucket keys
    = iterate w bucket prefix (flat_map (object_items bucket) keys).
Proof.
  induction keys as [|key keys IH]; intros w; simpl.
  - reflexivity.
  - rewrite iterate_app, handleObject_iterate.
    destruct (handleObject w bucket key) as [w1 [err|]]; simpl.
    + reflexivity.
    + apply IH.
Qed.

Lemma replay_for_iterate (bucket prefix : string) (fuel : nat) :
  forall w token items,
    archive_items fuel bucket prefix token = Some items ->
    replay_for fuel w bucket prefix token
    = (fst (iterate w bucket prefix items),
       Returned (snd (iterate w bucket prefix items))).
Proof.
  induction fuel as [|fuel IH]; intros w token items H; simpl in H.
  - discriminate.
  - simpl.
    destruct (ListObjectsV2 bucket prefix token) as [output|err].
    + rewrite (range_contents_iterate bucket prefix).
      destruct (NextContinuationToken output) as [t|].
      * destruct (archive_items fuel bucket prefix (Some t))
          as [later|] eqn:Hl; [|discriminate].
        injection H as <-. rewrite iterate_app.
        destruct (iterate w bucket prefix
                    (flat_map (object_items bucket) (Contents output)))
          as [w1 [err|]]; [reflexivity|].
        now apply IH.
      * injection H as <-.
        now destruct (iterate w bucket prefix
                        (flat_map (object_items bucket) (Contents output)))
          as [w1 [err|]].
    + injection H as <-. reflexivity.
Qed.

Lemma item_events_app (a b : list replay_item) :
  item_events (a ++ b) = item_events a ++ item_events b.
Proof.
  induction a as [|i a IH]; simpl; [reflexivity|].
  destruct (item_event i); simpl; now rewrite IH.
Qed.

(** Whatever comes of it, consuming an item dispatches its event, if it
    has one, and nothing else. *)
Lemma consume_replayed (bucket prefix : string) (w : ReplayWorld)
  (i : replay_item) :
  replayed (fst (consume w bucket prefix i))
  = replayed w ++ item_events [i].
Proof.
  destruct i as [err|key err|key line text]; simpl;
    try now rewrite app_nil_r.
  unfold decoded.
  destruct (DecodeString text) as [data|err]; simpl;
    [|now rewrite app_nil_r].
  destruct (UnmarshalEvent data) as [event|err]; simpl;
    [|now rewrite app_nil_r].
  now destruct (fn (replay_state w) event) as [st [err|]].
Qed.

Lemma consume_fails (bucket prefix : string) (w : ReplayWorld)
  (i : replay_item) :
  snd (consume w bucket prefix i) <> None <-> fails w i.
Proof.
  destruct i as [err|key err|key line text]; simpl;
    try (split; [tauto | discriminate]).
  unfold decoded.
  destruct (DecodeString text) as [data|err]; simpl;
    [|split; [tauto | discriminate]].
  destruct (UnmarshalEvent data) as [event|err]; simpl;
    [|split; [tauto | discriminate]].
  destruct (fn (replay_state w) event) as [st [err|]]; simpl;
    split; try tauto; discriminate.
Qed.

Lemma iterate_ok_events (bucket prefix : string) (items : list replay_item) :
  forall w w',
    iterate w bucket prefix items = (w', None) ->
    replayed w' = replayed w ++ item_events items.
Proof.
  induction items as [|i items IH]; intros w w' H; simpl in H.
  - injection H as <-. simpl. now rewrite app_nil_r.
  - pose proof (consume_replayed bucket prefix w i) as Hc.
    destruct (consume w bucket prefix i) as [w1 [err|]]; [discriminate|].
    apply IH in H. rewrite H. simpl in Hc. rewrite Hc.
    rewrite <- app_assoc. f_equal.
    change (i :: items) with ([i] ++ items). now rewrite item_events_app.
Qed.

Lemma iterate_succeeds (bucket prefix : string) (items : list replay_item) :
  forall w,
    no_failure w bucket prefix items ->
    snd (iterate w bucket prefix items) = None.
Proof.
  induction items as [|i items IH]; intros w Hno; simpl.
  - reflexivity.
  - pose proof (consume_fails bucket prefix w i) as Hf.
    pose proof (Hno [] i items w eq_refl eq_refl) as Hi.
    destruct (consume w bucket prefix i) as [w1 [err|]] eqn:Hc;
      simpl in Hf.
    + exfalso. apply Hi, Hf. discriminate.
    + apply IH. intros pre j post w2 -> Hpre.
      apply (Hno (i :: pre) j post w2 eq_refl).
      simpl. now rewrite Hc.
Qed.

Lemma archive_items_more_fuel (bucket prefix : string) (fuel : nat) :
  forall fuel' token items,
    fuel <= fuel' ->
    archive_items fuel bucket prefix token = Some items ->
    archive_items fuel' bucket prefix token = Some items.
Proof.
  induction fuel as [|fuel IH]; intros fuel' token items Hle H; simpl in H.
  - discriminate.
  - destruct fuel' as [|fuel']; [lia|]. simpl.
    destruct (ListObjectsV2 bucket prefix token) as [output|err];
      [|exact H].
    destruct (NextContinuationToken output) as [t|]; [|exact H].
    destruct (archive_items fuel bucket prefix (Some t)) as [later|] eqn:Hl;
      [|discriminate].
    rewrite (IH fuel' (Some t) later); [exact H | lia | exact Hl].
Qed.

(** X17.  Over the lines the scanner yields from each object: when
    the listing of the prefix ends within [fuel] pages,
    [Replay] returns (with that much fuel or more), and it is the
    iterator over the items of the archive in object-list order then
    line order:
    - when no item fails (every listing, read, decode and handler call
      succeeds), it returns nil, having dispatched every decoded event
      in that order;
    - whenever it returns nil, it has dispatched exactly these events;
    - at the first item that fails (a failed listing call, a failed
      [GetObject] call, a line that is not base64 or does not
      deserialize, a handler error) it
      returns a non-nil error, having dispatched the events of the
      items up to that one and none of the later ones. *)
Theorem Replay_dispatches_in_order_and_aborts_on_first_failure :
  forall (fuel fuel' : nat) (w : ReplayWorld) (bucket prefix : string)
         (items : list replay_item),
    archive_items fuel bucket prefix None = Some items ->
    fuel <= fuel' ->
    Replay fuel' w bucket prefix
    = (fst (iterate w bucket prefix items),
       Returned (snd (iterate w bucket prefix items)))
    /\ (no_failure w bucket prefix items ->
        exists w',
          Replay fuel' w bucket prefix = (w', Returned None)
          /\ replayed w' = replayed w ++ item_events items)
    /\ (forall w',
        Replay fuel' w bucket prefix = (w', Returned None) ->
        replayed w' = replayed w ++ item_events items)
    /\ (forall pre i post w1,
        items = pre ++ i :: post ->
        iterate w bucket prefix pre = (w1, None) ->
        fails w1 i ->
        exists w2 err,
          Replay fuel' w bucket prefix = (w2, Returned (Some err))
          /\ replayed w2 = replayed w ++ item_events (pre ++ [i])).
Proof.
  intros fuel fuel' w bucket prefix items Hitems Hle.
  apply (archive_items_more_fuel _ _ _ Hle) in Hitems.
  assert (Hr : Replay fuel' w bucket prefix
               = (fst (iterate w bucket prefix items),
                  Returned (snd (iterate w bucket prefix items))))
    by now apply replay_for_iterate.
  split; [exact Hr|]. split; [|split].
  - intros Hno.
    pose proof (iterate_succeeds Hno) as Hs.
    destruct (iterate w bucket prefix items) as [w' r] eqn:Hi.
    simpl in Hs. subst r.
    exists w'. split; [exact Hr|].
    now apply iterate_ok_events with bucket prefix.
  - intros w' H. rewrite Hr in H.
    destruct (iterate w bucket prefix items) as [w1 r] eqn:Hi.
    simpl in H. injection H as <- ->.
    now apply iterate_ok_events with bucket prefix.
  - intros pre i post w1 -> Hpre Hfail.
    rewrite Hr, iterate_app, Hpre. simpl.
    pose proof (consume_replayed bucket prefix w1 i) as Hc.
    apply (consume_fails bucket prefix) in Hfail.
    destruct (consume w1 bucket prefix i) as [w2 [err|]];
      simpl in Hfail; [|congruence].
    exists w2, err. split; [reflexivity|].
    simpl in Hc. rewrite Hc, item_events_app.
    apply iterate_ok_events in Hpre. rewrite Hpre.
    now rewrite <- app_assoc.
Qed.

End ReplayPath.

(** An archive of two pages, one object on each, two lines in each
    object: [{blah}], [{bleh}], then [{a}], [{b}]. *)

Definition two_pages (bucket prefix : string) (token : option string)
  : result ListObjectsV2Output :=
  match token with
  | None =>
    Ok {| Contents := ["master/1"];
          NextContinuationToken := Some "page-2" |}
  | Some _ =>
    Ok {| Contents := ["master/2"]; NextContinuationToken := None |}
  end.

Definition two_lines_each (bucket key : string) : result (list string) :=
  if String.eqb key "master/1"
  then Ok ["e2JsYWh9"; "e2JsZWh9"]
  else Ok ["e2F9"; "e2J9"].

(** The same archive, the second object opening with [{reject}]. *)
Definition rejected_in_second (bucket key : string)
  : result (list string) :=
  if String.eqb key "master/1"
  then Ok ["e2JsYWh9"; "e2JsZWh9"]
  else Ok ["e3JlamVjdH0="; "e2J9"].

Definition replay_start : ReplayWorld Sample.Event nat :=
  {| replay_state := 0; replayed := [] |}.

Example replay_aborts_at_the_rejected_event :
  Replay Sample.UnmarshalEvent Sample.fn two_pages rejected_in_second
    2 replay_start "events" "master/"
  = ({| replay_state := 3; replayed := ["{blah}"; "{bleh}"; "{reject}"] |},
     Returned
       (Some (UnableToProcess "events" "master/2" (External "rejected")))).
Proof. reflexivity. Qed.

Example replay_aborts_on_a_failed_listing :
  Replay Sample.UnmarshalEvent Sample.fn
    (fun _ _ _ => Failed (External "access denied")) two_lines_each
    1 replay_start "events" "master/"
  = (replay_start,
     Returned
       (Some (UnableToList "events" "master/" (External "access denied")))).
Proof. reflexivity. Qed.

Lemma replay_witness :
  archive_items two_pages two_lines_each 2 "events" "master/" None
  = Some [ Line "master/1" 1 "e2JsYWh9"; Line "master/1" 2 "e2JsZWh9";
           Line "master/2" 1 "e2F9"; Line "master/2" 2 "e2J9" ]
  /\ Replay Sample.UnmarshalEvent Sample.fn two_pages two_lines_each
       2 replay_start "events" "master/"
     = ({| replay_state := 4;
           replayed := ["{blah}"; "{bleh}"; "{a}"; "{b}"] |},
        Returned None)
  /\ exists w2 err,
       Replay Sample.UnmarshalEvent Sample.fn two_pages rejected_in_second
         5 replay_start "events" "master/"
       = (w2, Returned (Some err))
       /\ replayed w2 = ["{blah}"; "{bleh}"; "{reject}"].
Proof.
  split; [reflexivity|]. split.
  - destruct (@Replay_dispatches_in_order_and_aborts_on_first_failure
                _ Sample.UnmarshalEvent _ Sample.fn two_pages two_lines_each
                2 2 replay_start "events" "master/" _ eq_refl (le_n 2))
      as (Hr & _).
    rewrite Hr. reflexivity.
  - assert (Hle : 2 <= 5) by lia.
    destruct (@Replay_dispatches_in_order_and_aborts_on_first_failure
                _ Sample.UnmarshalEvent _ Sample.fn two_pages
                rejected_in_second
                2 5 replay_start "events" "master/" _ eq_refl Hle)
      as (_ & _ & _ & Habort).
    apply (Habort
             [Line "master/1" 1 "e2JsYWh9"; Line "master/1" 2 "e2JsZWh9"]
             (Line "master/2" 1 "e3JlamVjdH0=")
             [Line "master/2" 2 "e2J9"]
             {| replay_state := 2; replayed := ["{blah}"; "{bleh}"] |}
             eq_refl eq_refl).
    simpl. discriminate.
Defined.

(** *** The errors of the replay *)

Section ReplayErrors.

Variable Event : Type.
Variable UnmarshalEvent : bytes -> result Event.
Variable HState : Type.
Variable fn : HState -> Event -> HState * option error.
Variable ListObjectsV2 :
  string -> string -> option string -> result ListObjectsV2Output.
Variable GetObject : string -> string -> result (list string).

(** What [handleObject] can report of the object at [key]. *)
Inductive object_failure (bucket key : string) : error -> Prop :=
| ReadFailed err :
    GetObject bucket key = Failed err ->
    object_failure bucket key err
| LineNotBase64 lines n text err :
    GetObject bucket key = Ok lines ->
    nth_error lines n = Some text ->
    DecodeString text = Failed err ->
    object_failure bucket key (UnableToDecodeLine (S n) err)
| LineNotAnEvent lines text data err :
    GetObject bucket key = Ok lines ->
    In text lines ->
    DecodeString text = Ok data ->
    UnmarshalEvent data = Failed err ->
    object_failure bucket key (UnableToUnmarshalEvent err)
| HandlerFailed lines text data event st st' err :
    GetObject bucket key = Ok lines ->
    In text lines ->
    DecodeString text = Ok data ->
    UnmarshalEvent data = Ok event ->
    fn st event = (st', Some err) ->
    object_failure bucket key err.

Lemma scan_failure (lines : list string) :
  forall w line w' e,
    scan UnmarshalEvent fn w line lines = (w', Some e) ->
    (exists n text err,
        nth_error lines n = Some text
        /\ DecodeString text = Failed err
        /\ e = UnableToDecodeLine (line + n) err)
    \/ (exists text data err,
        In text lines
        /\ DecodeString text = Ok data
        /\ UnmarshalEvent data = Failed err
        /\ e = UnableToUnmarshalEvent err)
    \/ (exists text data event st st',
        In text lines
        /\ DecodeString text = Ok data
        /\ UnmarshalEvent data = Ok event
        /\ fn st event = (st', Some e)).
Proof.
  induction lines as [|text lines IH]; intros w line w' e H; simpl in H.
  - discriminate.
  - destruct (DecodeString text) as [data|err] eqn:Hd.
    + destruct (UnmarshalEvent data) as [event|err] eqn:Hu.
      * destruct (fn (replay_state w) event) as [st [err|]] eqn:Hf.
        -- injection H as <- <-. right. right.
           exists text, data, event, (replay_state w), st.
           repeat split; auto. now left.
        -- apply IH in H.
           destruct H as [(n & t & err & Hn & Ht & ->)
                         |[(t & d & err & Hin & Ht & Hue & ->)
                          |(t & d & ev & s & s' & Hin & Ht & Hue & Hfe)]].
           ++ left. exists (S n), t, err. repeat split; auto.
              f_equal. lia.
           ++ right. left. exists t, d, err. repeat split; auto. now right.
           ++ right. right. exists t, d, ev, s, s'.
              repeat split; auto. now right.
      * injection H as <- <-. right. left. exists text, data, err.
        repeat split; auto. now left.
    + injection H as <- <-. left. exists 0, text, err.
      rewrite Nat.add_0_r. repeat split; auto.
Qed.

Lemma handleObject_failure (w w' : ReplayWorld Event HState)
  (bucket key : string) (e : error) :
  handleObject UnmarshalEvent fn GetObject w bucket key = (w', Some e) ->
  object_failure bucket key e.
Proof.
  unfold handleObject. intros H.
  destruct (GetObject bucket key) as [lines|err] eqn:Hg.
  - apply scan_failure in H.
    destruct H as [(n & t & err & Hn & Ht & ->)
                  |[(t & d & err & Hin & Ht & Hue & ->)
                   |(t & d & ev & s & s' & Hin & Ht & Hue & Hfe)]].
    + eapply LineNotBase64; eauto.
    + eapply LineNotAnEvent; eauto.
    + eapply HandlerFailed; eauto.
  - injection H as <- <-. now apply ReadFailed.
Qed.

Lemma range_contents_failure (bucket : string) (keys : list string) :
  forall w w' e,
    range_contents UnmarshalEvent fn GetObject w bucket keys = (w', Some e) ->
    exists key cause,
      In key keys
      /\ e = UnableToProcess bucket key cause
      /\ object_failure bucket key cause.
Proof.
  induction keys as [|key keys IH]; intros w w' e H; simpl in H.
  - discriminate.
  - destruct (handleObject UnmarshalEvent fn GetObject w bucket key)
      as [w1 [err|]] eqn:Hh.
    + injection H as <- <-. exists key, err. split; [now left|].
      split; [reflexivity|]. now apply handleObject_failure in Hh.
    + apply IH in H. destruct H as (k & cause & Hin & He & Hf).
      exists k, cause. split; [now right | auto].
Qed.

(** X12.  Every error [Replay] returns says what failed.  It is either
    the error of a listing call, wrapped with the bucket and the prefix,
    or the failure of one object of a listed page, wrapped with the
    bucket and that object's key: the error of reading it, the 1-based
    number of a line of it that is not base64 with the decoder's error,
    the serializer's error on a line of it, or the handler's own error
    on the event of a line of it. *)
Theorem Replay_errors_name_what_failed :
  forall (fuel : nat) (w w' : ReplayWorld Event HState)
         (bucket prefix : string) (e : error),
    Replay UnmarshalEvent fn ListObjectsV2 GetObject fuel w bucket prefix
    = (w', Returned (Some e)) ->
    (exists token cause,
        ListObjectsV2 bucket prefix token = Failed cause
        /\ e = UnableToList bucket prefix cause)
    \/ (exists token output key cause,
        ListObjectsV2 bucket prefix token = Ok output
        /\ In key (Contents output)
        /\ e = UnableToProcess bucket key cause
        /\ object_failure bucket key cause).
Proof.
  intros fuel w w' bucket prefix e. unfold Replay. generalize (@None string).
  revert w. induction fuel as [|fuel IH]; intros w token H; simpl in H.
  - discriminate.
  - destruct (ListObjectsV2 bucket prefix token) as [output|err] eqn:Hl.
    + destruct (range_contents UnmarshalEvent fn GetObject w bucket
                  (Contents output)) as [w1 [err|]] eqn:Hr.
      * injection H as <- <-. right.
        apply range_contents_failure in Hr.
        destruct Hr as (key & cause & Hin & He & Hf).
        exists token, output, key, cause. auto.
      * destruct (NextContinuationToken output) as [t|]; [|discriminate].
        now apply IH in H.
    + injection H as <- <-. left. exists token, err. auto.
Qed.

End ReplayErrors.

Lemma replay_errors_witness :
  Replay Sample.UnmarshalEvent Sample.fn two_pages rejected_in_second
    2 replay_start "events" "master/"
  = ({| replay_state := 3; replayed := ["{blah}"; "{bleh}"; "{reject}"] |},
     Returned
       (Some (UnableToProcess "events" "master/2" (External "rejected"))))
  /\ ((exists token cause,
         two_pages "events" "master/" token = Failed cause
         /\ UnableToProcess "events" "master/2" (External "rejected")
            = UnableToList "events" "master/" cause)
      \/ (exists token output key cause,
         two_pages "events" "master/" token = Ok output
         /\ In key (Contents output)
         /\ UnableToProcess "events" "master/2" (External "rejected")
            = UnableToProcess "events" key cause
         /\ object_failure Sample.UnmarshalEvent Sample.fn
              rejected_in_second "events" key cause)).
Proof.
  split; [reflexivity|].
  exact (Replay_errors_name_what_failed
           Sample.UnmarshalEvent Sample.fn two_pages rejected_in_second
           2 replay_start "events" "master/" eq_refl).
Defined.

(** *** The test's mock of the archive, read through [bufio.Scanner] *)

(** [bufio.MaxScanTokenSize] *)
Definition MaxScanTokenSize : N := 65536.

(** [dropCR], on a line held last character first. *)
Definition dropCR (held : list ascii) : list ascii :=
  match held with
  | c :: rest => if Ascii.eqb c "013"%char then rest else held
  | [] => []
  end.

Definition token (held : list ascii) : string :=
  string_of_list_ascii (rev (dropCR held)).

(** The line held does not fit the scanner's buffer with what ends it. *)
Definition too_long (held : list ascii) : bool :=
  (MaxScanTokenSize <=? N.of_nat (length held))%N.

(** The tokens [Scanner.Scan] yields with the split function
    [ScanLines], until it returns false: at the end of the data, or on a
    line too long for the buffer.  [held] is the line read so far, last
    character first. *)
Fixpoint scan_from (held data : list ascii) : list string :=
  match data with
  | [] =>
    match held with
    | [] => []
    | _ => if too_long held then [] else [token held]
    end
  | c :: rest =>
    if Ascii.eqb c "010"%char
    then if too_long held then [] else token held :: scan_from [] rest
    else scan_from (c :: held) rest
  end.

Definition Scanner_lines (body : string) : list string :=
  scan_from [] (list_ascii_of_string body).

(** [Mock.ListObjectsV2WithContext]: one object, no further page. *)
Definition Mock_ListObjectsV2 (bucket prefix : string)
  (token : option string) : result ListObjectsV2Output :=
  Ok {| Contents := ["blah"]; NextContinuationToken := None |}.

Section MockArchive.

Variable Event : Type.
Variable MarshalEvent : Event -> result bytes.
Variable UnmarshalEvent : bytes -> result Event.
Variable HState : Type.
Variable fn : HState -> Event -> HState * option error.

(** The buffer [Mock.GetObjectWithContext] fills: a line per event. *)
Fixpoint mock_buffer (events : list Event) : result string :=
  match events with
  | [] => Ok ""%string
  | event :: rest =>
    match MarshalEvent event with
    | Failed err => Failed err
    | Ok data =>
      match mock_buffer rest with
      | Failed err => Failed err
      | Ok later =>
        Ok (Base64.EncodeToString data ++ String "010" later)%string
      end
    end
  end.

(** [Mock.GetObjectWithContext], as [handleObject] reads its body. *)
Definition Mock_GetObject (events : list Event) (bucket key : string)
  : result (list string) :=
  match mock_buffer events with
  | Failed err => Failed err
  | Ok body => Ok (Scanner_lines body)
  end.

(** The serializer reads back what it wrote, and the lines are short
    enough for the scanner. *)
Definition replayable (events : list Event) : Prop :=
  forall event,
    In event events ->
    exists data,
      MarshalEvent event = Ok data
      /\ UnmarshalEvent data = Ok event
      /\ (N.of_nat (String.length (Base64.EncodeToString data))
          < MaxScanTokenSize)%N.

Lemma not_newline_chars (c : ascii) :
  is_newline c = false ->
  Ascii.eqb c "010"%char = false /\ Ascii.eqb c "013"%char = false.
Proof.
  intros H. split.
  - destruct (Ascii.eqb_spec c "010"%char) as [->|]; [discriminate H | auto].
  - destruct (Ascii.eqb_spec c "013"%char) as [->|]; [discriminate H | auto].
Qed.

Lemma scan_from_line (line : list ascii) :
  Forall (fun c => is_newline c = false) line ->
  forall held rest,
    Forall (fun c => is_newline c = false) held ->
    (N.of_nat (length held + length line) < MaxScanTokenSize)%N ->
    scan_from held (line ++ "010"%char :: rest)
    = string_of_list_ascii (rev held ++ line) :: scan_from [] rest.
Proof.
  induction 1 as [|c line Hc _ IH]; intros held rest Hheld Hlen.
  - cbn [app scan_from]. change (Ascii.eqb "010" "010") with true. cbv iota.
    unfold too_long.
    destruct (N.leb_spec MaxScanTokenSize (N.of_nat (length held)))
      as [Hle|_]; [simpl in Hlen; lia|].
    unfold token. rewrite app_nil_r. do 2 f_equal.
    destruct held as [|h held]; [reflexivity|]. cbn [dropCR].
    inversion Hheld as [|? ? Hh _]; subst.
    now rewrite (proj2 (not_newline_chars h Hh)).
  - cbn [app scan_from]. rewrite (proj1 (not_newline_chars c Hc)).
    rewrite IH.
    + cbn [rev]. now rewrite <- app_assoc.
    + now constructor.
    + simpl in *. lia.
Qed.

Lemma length_list_ascii (s : string) :
  length (list_ascii_of_string s) = String.length s.
Proof. induction s as [|c s IH]; simpl; [|rewrite IH]; reflexivity. Qed.

Lemma list_ascii_append (s t : string) :
  list_ascii_of_string (s ++ t)%string
  = list_ascii_of_string s ++ list_ascii_of_string t.
Proof. induction s as [|c s IH]; simpl; [|rewrite IH]; reflexivity. Qed.

(** The lines the scanner yields from the mock's buffer are the
    encoded records, one per event. *)
Lemma Mock_GetObject_lines (events : list Event) (bucket key : string) :
  replayable events ->
  exists records,
    Mock_GetObject events bucket key
    = Ok (map Base64.EncodeToString records)
    /\ Forall2 (fun event data =>
                  MarshalEvent event = Ok data
                  /\ UnmarshalEvent data = Ok event) events records.
Proof.
  unfold Mock_GetObject, Scanner_lines.
  induction events as [|event events IH]; intros Hr.
  - exists []. split; [reflexivity | constructor].
  - destruct (Hr event (or_introl eq_refl)) as (data & Hm & Hu & Hlen).
    destruct IH as (records & Hlines & Hall).
    { intros e He. apply Hr. now right. }
    cbn [mock_buffer]. rewrite Hm.
    destruct (mock_buffer events) as [later|err]; [|discriminate].
    injection Hlines as Hlines.
    exists (data :: records). split; [|constructor; auto].
    f_equal. rewrite list_ascii_append. cbn [list_ascii_of_string].
    rewrite scan_from_line.
    + cbn [rev app map]. rewrite Hlines.
      now rewrite string_of_list_ascii_of_string.
    + unfold Base64.EncodeToString.
      rewrite list_ascii_of_string_of_list_ascii.
      apply Base64.encode_quanta_no_newline with (length data). lia.
    + constructor.
    + rewrite length_list_ascii. exact Hlen.
Qed.

Lemma scan_records (records : list bytes) :
  forall (events : list Event) (w : ReplayWorld Event HState) (line : nat),
    Forall2 (fun event data =>
               MarshalEvent event = Ok data
               /\ UnmarshalEvent data = Ok event) events records ->
    (forall st event, In event events -> snd (fn st event) = None) ->
    exists w',
      scan UnmarshalEvent fn w line (map Base64.EncodeToString records)
      = (w', None)
      /\ replayed w' = replayed w ++ events.
Proof.
  induction records as [|data records IH]; intros events w line Hall Hfn.
  - inversion Hall; subst. exists w. simpl. now rewrite app_nil_r.
  - inversion Hall as [|event ? es ? [Hm Hu] Hrest]; subst.
    cbn [map scan]. rewrite Base64.decode_encode, Hu.
    pose proof (Hfn (replay_state w) event (or_introl eq_refl)) as Hok.
    destruct (fn (replay_state w) event) as [st r]. simpl in Hok. subst r.
    destruct (IH es (replay_called w event st) (S line) Hrest
                 (fun st0 e He => Hfn st0 e (or_intror He)))
      as (w' & Hscan & Hrep).
    exists w'. split; [exact Hscan|].
    rewrite Hrep. simpl. now rewrite <- app_assoc.
Qed.

(** X15.  The test of the replay, for any events.  Against the mock
    archive, with a serializer that reads back what it wrote for these
    events, encoded records that fit the scanner's buffer and a handler
    that accepts the events, [Replay] returns nil after one listing
    call, having called the handler on exactly these events, in order. *)
Theorem Replay_of_the_mock_dispatches_its_events :
  forall (events : list Event) (w : ReplayWorld Event HState)
         (bucket prefix : string) (fuel : nat),
    replayable events ->
    (forall st event, In event events -> snd (fn st event) = None) ->
    exists w',
      Replay UnmarshalEvent fn Mock_ListObjectsV2 (Mock_GetObject events)
        (S fuel) w bucket prefix
      = (w', Returned None)
      /\ replayed w' = replayed w ++ events.
Proof.
  intros events w bucket prefix fuel Hr Hfn.
  destruct (Mock_GetObject_lines bucket "blah" Hr)
    as (records & Hlines & Hall).
  destruct (scan_records w 1 Hall Hfn) as (w' & Hscan & Hrep).
  exists w'. split; [|exact Hrep].
  unfold Replay. cbn [replay_for Mock_ListObjectsV2 Contents
                      NextContinuationToken range_contents].
  unfold handleObject. rewrite Hlines, Hscan. reflexivity.
Qed.

End MockArchive.

(** A serializer that writes an event as its own bytes. *)
Definition sample_record (event : Sample.Event) : result bytes :=
  Ok (bytes_of_string event).

Example scanner_yields_the_lines :
  Scanner_lines ("e2JsYWh9" ++ String "010" ("e2J9" ++ String "010" ""))
  = ["e2JsYWh9"; "e2J9"].
Proof. reflexivity. Qed.

Lemma replay_mock_witness :
  replayable sample_record Sample.UnmarshalEvent ["{blah}"; "{b}"]
  /\ exists w',
       Replay Sample.UnmarshalEvent Sample.fn Mock_ListObjectsV2
         (Mock_GetObject sample_record ["{blah}"; "{b}"])
         1 replay_start "vavende-events-dev" "master-events--integration/"
       = (w', Returned None)
       /\ replayed w' = ["{blah}"; "{b}"].
Proof.
  assert (Hr : replayable sample_record Sample.UnmarshalEvent
                 ["{blah}"; "{b}"]).
  { intros e [<-|[<-|[]]]; eexists; repeat split; reflexivity. }
  assert (Hfn : forall st event,
             In event ["{blah}"; "{b}"] -> snd (Sample.fn st event) = None).
  { intros st e [<-|[<-|[]]]; reflexivity. }
  split; [exact Hr|].
  exact (@Replay_of_the_mock_dispatches_its_events
           _ sample_record Sample.UnmarshalEvent _ Sample.fn
           ["{blah}"; "{b}"] replay_start
           "vavende-events-dev" "master-events--integration/" 0 Hr Hfn).
Defined.

(** *** A line too long for the scanner *)

(** No character of [s] is a line feed or a carriage return. *)
Definition plain (s : string) : bool :=
  forallb (fun c => negb (is_newline c)) (list_ascii_of_string s).

(** Lines written one after the other, each ended by a line feed. *)
Fixpoint join_lines (lines : list string) : string :=
  match lines with
  | [] => ""%string
  | line :: rest => (line ++ String "010" (join_lines rest))%string
  end.

Lemma append_assoc_string (a b c : string) :
  ((a ++ b) ++ c = a ++ (b ++ c))%string.
Proof. induction a as [|x a IH]; simpl; [|rewrite IH]; reflexivity. Qed.

Lemma plain_Forall (s : string) :
  plain s = true ->
  Forall (fun c => is_newline c = false) (list_ascii_of_string s).
Proof.
  unfold plain. rewrite forallb_forall. intros H.
  apply Forall_forall. intros c Hc. apply H in Hc.
  now apply negb_true_iff in Hc.
Qed.

Lemma scan_from_overlong (line : list ascii) :
  Forall (fun c => is_newline c = false) line ->
  forall held rest,
    (MaxScanTokenSize <= N.of_nat (length held + length line))%N ->
    scan_from held (line ++ "010"%char :: rest) = [].
Proof.
  induction 1 as [|c line Hc _ IH]; intros held rest Hlen.
  - cbn [app scan_from]. change (Ascii.eqb "010" "010") with true. cbv iota.
    unfold too_long.
    destruct (N.leb_spec MaxScanTokenSize (N.of_nat (length held)))
      as [_|Hlt]; [reflexivity|].
    simpl in Hlen. rewrite Nat.add_0_r in Hlen. lia.
  - cbn [app scan_from]. rewrite (proj1 (not_newline_chars c Hc)).
    apply IH. simpl in *. rewrite Nat.add_succ_r in Hlen. exact Hlen.
Qed.

Lemma Scanner_stops_at_overlong (lines : list string) (long rest : string) :
  Forall (fun line =>
            plain line = true
            /\ (N.of_nat (String.length line) < MaxScanTokenSize)%N) lines ->
  plain long = true ->
  (MaxScanTokenSize <= N.of_nat (String.length long))%N ->
  Scanner_lines (join_lines lines ++ long ++ String "010" rest) = lines.
Proof.
  unfold Scanner_lines. intros Hlines Hplain Hlong.
  induction Hlines as [|line lines [Hp Hl] _ IH]; cbn [join_lines].
  - cbn [append]. rewrite list_ascii_append. cbn [list_ascii_of_string].
    apply scan_from_overlong.
    + now apply plain_Forall.
    + now rewrite length_list_ascii.
  - rewrite append_assoc_string. rewrite list_ascii_append.
    cbn [append list_ascii_of_string].
    rewrite scan_from_line.
    + cbn [rev app]. rewrite string_of_list_ascii_of_string.
      f_equal. exact IH.
    + now apply plain_Forall.
    + constructor.
    + now rewrite length_list_ascii.
Qed.

Section ScannerLimit.

Variable Event : Type.
Variable UnmarshalEvent : bytes -> result Event.
Variable HState : Type.
Variable fn : HState -> Event -> HState * option error.
Variable GetObject : string -> string -> result (list string).

(** X16.  [handleObject] never looks at the scanner's error.  When an
    object holds a line of 65536 characters or more, the scanner stops
    there: [handleObject] handles the lines before it and returns what
    it would return had the object ended before that line, nil if these
    lines went well; the long line and all that follows it are skipped
    without an error. *)
Theorem overlong_line_ends_the_object_silently :
  forall (lines : list string) (long rest : string)
         (w : ReplayWorld Event HState) (bucket key : string),
    Forall (fun line =>
              plain line = true
              /\ (N.of_nat (String.length line) < MaxScanTokenSize)%N)
      lines ->
    plain long = true ->
    (MaxScanTokenSize <= N.of_nat (String.length long))%N ->
    GetObject bucket key
    = Ok (Scanner_lines (join_lines lines ++ long ++ String "010" rest)) ->
    handleObject UnmarshalEvent fn GetObject w bucket key
    = scan UnmarshalEvent fn w 1 lines.
Proof.
  intros lines long rest w bucket key Hlines Hplain Hlong Hget.
  unfold handleObject. rewrite Hget.
  now rewrite Scanner_stops_at_overlong.
Qed.

End ScannerLimit.

(** A line of 65536 characters. *)
Definition long_line : string :=
  string_of_list_ascii (repeat "A"%char (N.to_nat 65536)).

(** An object with one record, the long line and one more record. *)
Definition truncated_object (bucket key : string) : result (list string) :=
  Ok (Scanner_lines
        (join_lines ["e2JsYWh9"] ++ long_line ++ String "010" "e2J9")).

Lemma overlong_line_witness :
  plain long_line = true
  /\ (MaxScanTokenSize <= N.of_nat (String.length long_line))%N
  /\ handleObject Sample.UnmarshalEvent Sample.fn truncated_object
       replay_start "events" "master/1"
     = ({| replay_state := 1; replayed := ["{blah}"] |}, None).
Proof.
  assert (Hp : plain long_line = true) by (vm_compute; reflexivity).
  assert (Hl : (MaxScanTokenSize <= N.of_nat (String.length long_line))%N)
    by (vm_compute; discriminate).
  split; [exact Hp|]. split; [exact Hl|].
  rewrite (@overlong_line_ends_the_object_silently
             _ Sample.UnmarshalEvent _ Sample.fn truncated_object
             ["e2JsYWh9"] long_line "e2J9" replay_start "events" "master/1").
  - reflexivity.
  - repeat constructor.
  - exact Hp.
  - exact Hl.
  - reflexivity.
Defined.

(** *** The replay past a line the scanner refuses *)

(** The archive of two pages: the first object holds the record
    [{blah}], a line of 65536 characters and the record [{b}]; the
    second object holds the record [{a}]. *)
Definition long_line_in_first (bucket key : string) : result (list string) :=
  if String.eqb key "master/1"
  then truncated_object bucket key
  else Ok ["e2F9"].

(** C9, the code at the failing input.  Reading the first object fails
    at its second line, which the scanner cannot hold: [Scan] returns
    false there, with an error [handleObject] never asks for.
    [handleObject] returns nil, [Replay] goes on to the second object
    and returns nil: the long line and the record [{b}] after it in the
    first object are skipped, and no error reaches the caller. *)
Theorem Replay_returns_nil_past_a_line_the_scanner_refuses :
  Scanner_lines
    (join_lines ["e2JsYWh9"] ++ long_line ++ String "010" "e2J9")
  = ["e2JsYWh9"]
  /\ handleObject Sample.UnmarshalEvent Sample.fn long_line_in_first
       replay_start "events" "master/1"
     = ({| replay_state := 1; replayed := ["{blah}"] |}, None)
  /\ Replay Sample.UnmarshalEvent Sample.fn two_pages long_line_in_first
       2 replay_start "events" "master/"
     = ({| replay_state := 2; replayed := ["{blah}"; "{a}"] |},
        Returned None).
Proof. repeat split; vm_compute; reflexivity. Qed.

End S3Firehose.
